(** * Combat proximity management (world/combat/proximity.py)

    A shallow embedding of the proximity module of the combat system and
    the proofs of its specified properties.

    The Python module keeps, on every character, a non-persistent attribute
    (named by the constant [NDB_PROXIMITY]) that is expected to hold a
    [set] of the characters it is in proximity with.  All functions of the
    module read and mutate these per-character sets in place.

    Modelling choices:
    - a Python value is either [None] or a reference to an object;
      references are compared by identity, which is what [==] does on the
      characters of the game;
    - the object store is a total map from references to object records;
      a record holds the object's [key], its truth value ([bool(obj)]), its
      ordinary attributes (among them the optional [location]) and the
      content of the [NDB_PROXIMITY] slot of its [ndb] holder;
    - the slot is absent, holds a [set], or holds something that is not a
      [set]; every set is owned by the slot that holds it (the module only
      ever creates sets with [set()], one per character);
    - attribute access on [None] raises [AttributeError]; the state reached
      when the exception is raised is kept, as in Python;
    - the order in which a [set] is enumerated is left open: it is a
      parameter of the development ([SetOrder]);
    - so are the attribute names that [None] and the class of the objects
      provide ([Attributes]), which [hasattr] consults besides the
      attributes of the instance;
    - [log_debug] and [roll_stat] live in [utils], outside this module. *)

From Stdlib Require Import ZArith.
From stdpp Require Import base decidable countable option list strings functions gmap sets fin_sets.

Local Open Scope string_scope.
#[local] Set Warnings "-clear-no-such-hyp".

(** ** Values and objects *)

Abbreviation objid := nat (only parsing).

Inductive value :=
  | VNone
  | VRef (o : objid).

#[global] Instance value_eq_dec : EqDecision value.
Proof. solve_decision. Defined.

Definition value_to_option (v : value) : option objid :=
  match v with VNone => None | VRef o => Some o end.

Definition value_of_option (x : option objid) : value :=
  match x with None => VNone | Some o => VRef o end.

#[global] Instance value_countable : Countable value.
Proof.
  apply (inj_countable' value_to_option value_of_option).
  by intros [].
Defined.

(** What the [NDB_PROXIMITY] attribute of an [ndb] holder contains when it
    is present: a [set], or anything else. *)
Inductive stored :=
  | StoredSet (s : gset value)
  | StoredOther.

Record obj := Obj {
  key : string;
  truthy : bool;
  attrs : gmap string value;
  ndb_proximity : option stored
}.

(** One call of the diagnostic sink: category, event, message. *)
Record log_entry := LogEntry {
  log_category : string;
  log_event : string;
  log_message : string
}.

Record state := State {
  objs : objid → obj;
  log : list log_entry;
  rolls_made : nat
}.

Definition set_ndb_proximity (x : option stored) (ob : obj) : obj :=
  {| key := key ob; truthy := truthy ob; attrs := attrs ob; ndb_proximity := x |}.

Definition upd_obj (o : objid) (f : obj → obj) (σ : state) : state :=
  {| objs := <[o := f (objs σ o)]> (objs σ); log := log σ; rolls_made := rolls_made σ |}.

Definition push_log (e : log_entry) (σ : state) : state :=
  {| objs := objs σ; log := log σ ++ [e]; rolls_made := rolls_made σ |}.

Definition count_roll (σ : state) : state :=
  {| objs := objs σ; log := log σ; rolls_made := S (rolls_made σ) |}.

(** ** Computations: state passing with exceptions *)

Inductive exn := AttributeError.

Inductive outcome (A : Type) :=
  | Return (a : A)
  | Raised (e : exn).
Arguments Return {A} a.
Arguments Raised {A} e.

Definition M (A : Type) : Type := state → outcome A * state.

Definition ret {A} (a : A) : M A := λ σ, (Return a, σ).

Definition raise {A} (e : exn) : M A := λ σ, (Raised e, σ).

Definition bind {A B} (m : M A) (k : A → M B) : M B :=
  λ σ, match m σ with
       | (Return a, σ') => k a σ'
       | (Raised e, σ') => (Raised e, σ')
       end.

Definition get_state : M state := λ σ, (Return σ, σ).

Definition modify (f : state → state) : M unit := λ σ, (Return tt, f σ).

Notation "'let*' x ':=' m 'in' k" := (bind m (λ x, k))
  (at level 10, x name, m at level 100, k at level 200, only parsing).
Notation "m '>>>' k" := (bind m (λ _, k))
  (at level 100, k at level 200, right associativity, only parsing).

(** [for x in l: body x] *)
Fixpoint for_each {A} (l : list A) (body : A → M unit) : M unit :=
  match l with
  | [] => ret tt
  | x :: l' => body x >>> for_each l' body
  end.


(** ** The surroundings of the module *)

(** The enumeration order of a Python [set] is not specified: any listing
    of the elements, each once, is possible.  [list(s)] and [for x in s]
    are both [enumerate s]. *)
Class SetOrder := {
  enumerate : gset value → list value;
  enumerate_perm : ∀ s, enumerate s ≡ₚ elements s
}.

(** [character.ndb]: every object of the game has an [ndb] holder, [None]
    has no attributes. *)
Definition ndb_of (character : value) : M objid :=
  match character with
  | VNone => raise AttributeError
  | VRef o => ret o
  end.

(** [character.key] *)
Definition key_of (character : value) : M string :=
  λ σ, match character with
       | VNone => (Raised AttributeError, σ)
       | VRef o => (Return (key (objs σ o)), σ)
       end.

(** [bool(v)] *)
Definition truth (σ : state) (v : value) : bool :=
  match v with
  | VNone => false
  | VRef o => truthy (objs σ o)
  end.

(** Attribute lookup finds a name in the instance or in its type.  The
    types are not part of the sources ([None] is Python's, the class of
    the objects is the game's), so the names they provide are parameters:
    [none_attr] for [None], [class_attr] for every object of the game.
    What the module relies on is recorded with them: an object always has
    [key], [ndb] and [__class__]; [None] has [__class__] but no [key], no
    [ndb] and no [location]; and [location] is looked up in the instance,
    where it may be missing (the module guards it with [hasattr]). *)
Class Attributes := {
  none_attr : string → bool;
  class_attr : string → bool;
  class_attr_key : class_attr "key" = true;
  class_attr_ndb : class_attr "ndb" = true;
  class_attr_class : class_attr "__class__" = true;
  class_attr_location : class_attr "location" = false;
  none_attr_class : none_attr "__class__" = true;
  none_attr_key : none_attr "key" = false;
  none_attr_ndb : none_attr "ndb" = false;
  none_attr_location : none_attr "location" = false
}.

(** [hasattr(v, name)]: on [None] the names of its type; on an object the
    names of its class and those of the instance. *)
Definition hasattr `{Attributes} (σ : state) (v : value) (name : string) : bool :=
  match v with
  | VNone => none_attr name
  | VRef o => class_attr name || bool_decide (is_Some (attrs (objs σ o) !! name))
  end.

(** [str(v)], as interpolated in a log message; an object of the game
    prints as its key. *)
Definition str_of (σ : state) (v : value) : string :=
  match v with
  | VNone => "None"
  | VRef o => key (objs σ o)
  end.

(** Modelled from the spec: [log_debug] of [utils] is missing from the
    sources; the spec describes it as a fire-and-forget diagnostic sink
    whose failures never propagate.  It records the entry and returns. *)
Definition log_debug (category event message : string) : M unit :=
  modify (push_log (LogEntry category event message)).

(** ** Operations on the set held by a slot *)

(** [hasattr(o.ndb, NDB_PROXIMITY) and isinstance(getattr(o.ndb, NDB_PROXIMITY), set)] *)
Definition is_proximity_set (σ : state) (o : objid) : bool :=
  match ndb_proximity (objs σ o) with
  | Some (StoredSet _) => true
  | _ => false
  end.

Definition map_set (f : gset value → gset value) (ob : obj) : obj :=
  match ndb_proximity ob with
  | Some (StoredSet s) => set_ndb_proximity (Some (StoredSet (f s))) ob
  | _ => ob
  end.

(** A method call [getattr(o.ndb, NDB_PROXIMITY).m(...)] on the set of
    [o]; an absent attribute, or a value without the method, raises. *)
Definition set_method (o : objid) (f : gset value → gset value) : M unit :=
  λ σ, if is_proximity_set σ o
       then (Return tt, upd_obj o (map_set f) σ)
       else (Raised AttributeError, σ).

Definition set_add (o : objid) (v : value) : M unit := set_method o (λ s, s ∪ {[v]}).
Definition set_discard (o : objid) (v : value) : M unit := set_method o (λ s, s ∖ {[v]}).
Definition set_clear (o : objid) : M unit := set_method o (λ _, ∅).

(** [setattr(o.ndb, NDB_PROXIMITY, set())] *)
Definition setattr_fresh_set (o : objid) : M unit :=
  modify (upd_obj o (set_ndb_proximity (Some (StoredSet ∅)))).

(** [max(first :: rest, key=...)]: Python keeps the first item and replaces
    it only by an item whose key is strictly greater. *)
Fixpoint py_max {A} (keyf : A → Z) (best : A) (rest : list A) : A :=
  match rest with
  | [] => best
  | x :: rest' => if (keyf best <? keyf x)%Z then py_max keyf x rest' else py_max keyf best rest'
  end.

(** ** The functions of proximity.py *)

Section proximity.
Context {order : SetOrder} {attributes : Attributes}.

(** [roll_stat] of [utils] is missing from the sources and is taken as
    a parameter: a roll is a number that may depend on the opponent, on
    the stat and on everything in the state, the count of the rolls made
    so far included, so that two rolls are independent. *)
Variable roll_stat : state → value → string → Z.

Definition call_roll_stat (opponent : value) (stat_name : string) : M Z :=
  λ σ, (Return (roll_stat σ opponent stat_name), count_roll σ).

Definition initialize_proximity (character : value) : M bool :=
  let* o := ndb_of character in
  let* σ := get_state in
  if negb (bool_decide (is_Some (ndb_proximity (objs σ o)))) || negb (is_proximity_set σ o)
  then
    setattr_fresh_set o >>>
    let* k := key_of character in
    log_debug "PROXIMITY" "INIT" ("Initialized for " ++ k) >>>
    ret true
  else ret false.

Definition establish_proximity (char1 char2 : value) : M unit :=
  if decide (char1 = char2) then ret tt
  else
    initialize_proximity char1 >>>
    initialize_proximity char2 >>>
    let* o1 := ndb_of char1 in
    let* o2 := ndb_of char2 in
    set_add o1 char2 >>>
    set_add o2 char1 >>>
    let* k1 := key_of char1 in
    let* k2 := key_of char2 in
    log_debug "PROXIMITY" "ESTABLISH" (k1 ++ " <-> " ++ k2).

Definition break_proximity (char1 char2 : value) : M unit :=
  if decide (char1 = char2) then ret tt
  else
    let* o1 := ndb_of char1 in
    let* σ1 := get_state in
    (if is_proximity_set σ1 o1 then set_discard o1 char2 else ret tt) >>>
    let* o2 := ndb_of char2 in
    let* σ2 := get_state in
    (if is_proximity_set σ2 o2 then set_discard o2 char1 else ret tt) >>>
    let* k1 := key_of char1 in
    let* k2 := key_of char2 in
    log_debug "PROXIMITY" "BREAK" (k1 ++ " <-> " ++ k2).

(** The body of the loop of [clear_all_proximity]. *)
Definition forget (character other_char : value) : M unit :=
  let* o' := ndb_of other_char in
  let* σ := get_state in
  if is_proximity_set σ o' then set_discard o' character else ret tt.

Definition clear_all_proximity (character : value) : M unit :=
  let* o := ndb_of character in
  let* σ := get_state in
  match ndb_proximity (objs σ o) with
  | None => ret tt
  | Some StoredOther => ret tt
  | Some (StoredSet proximity_set) =>
      for_each (enumerate proximity_set) (forget character) >>>
      set_clear o >>>
      let* k := key_of character in
      log_debug "PROXIMITY" "CLEAR_ALL" ("Cleared for " ++ k)
  end.

Definition get_proximity_list (character : value) : M (list value) :=
  let* o := ndb_of character in
  let* σ := get_state in
  match ndb_proximity (objs σ o) with
  | None => ret []
  | Some StoredOther => ret []
  | Some (StoredSet proximity_set) => ret (enumerate proximity_set)
  end.

Definition is_in_proximity (char1 char2 : value) : M bool :=
  if decide (char1 = char2) then ret false
  else
    let* o1 := ndb_of char1 in
    let* σ := get_state in
    match ndb_proximity (objs σ o1) with
    | None => ret false
    | Some StoredOther => ret false
    | Some (StoredSet proximity_set) => ret (bool_decide (char2 ∈ proximity_set))
    end.

(** The loop of [proximity_opposed_roll] that fills [rolls]. *)
Fixpoint collect_rolls (proximity_list : list value) (stat_name : string)
    (rolls : list (value * Z)) : M (list (value * Z)) :=
  match proximity_list with
  | [] => ret rolls
  | opponent :: rest =>
      let* σ := get_state in
      if hasattr σ opponent stat_name
      then
        let* roll := call_roll_stat opponent stat_name in
        collect_rolls rest stat_name (rolls ++ [(opponent, roll)])
      else collect_rolls rest stat_name rolls
  end.

Definition proximity_opposed_roll (character : value) (stat_name : string)
    : M (Z * value * list (value * Z)) :=
  let* proximity_list := get_proximity_list character in
  match proximity_list with
  | [] => ret (0%Z, VNone, [])
  | _ :: _ =>
      let* rolls := collect_rolls proximity_list stat_name [] in
      match rolls with
      | [] => ret (0%Z, VNone, [])
      | first :: others =>
          let '(highest_opponent, highest_roll) := py_max snd first others in
          ret (highest_roll, highest_opponent, rolls)
      end
  end.

(** The test of the first loop of [cleanup_invalid_proximity]: whether
    [other_char] is appended to [invalid_chars]. *)
Definition is_invalid (σ : state) (character : objid) (other_char : value) : bool :=
  match other_char with
  | VNone => true
  | VRef o' =>
      if negb (truthy (objs σ o')) then true
      else
        match attrs (objs σ o') !! "location" with
        | None => true
        | Some other_location =>
            if negb (truth σ other_location) then true
            else
              match attrs (objs σ character) !! "location" with
              | None => false
              | Some location => bool_decide (location ≠ other_location)
              end
        end
  end.

(** The body of the second loop of [cleanup_invalid_proximity]; [o] is
    [character.ndb]. *)
Definition remove_invalid (character : value) (o : objid) (invalid_char : value) : M unit :=
  set_discard o invalid_char >>>
  let* σ := get_state in
  let* k := key_of character in
  log_debug "PROXIMITY" "CLEANUP"
    ("Removed invalid " ++ str_of σ invalid_char ++ " from " ++ k).

Definition cleanup_invalid_proximity (character : value) : M unit :=
  let* o := ndb_of character in
  let* σ := get_state in
  match ndb_proximity (objs σ o) with
  | None => ret tt
  | Some StoredOther => ret tt
  | Some (StoredSet proximity_set) =>
      let invalid_chars := filter (λ c, is_invalid σ o c = true) (enumerate proximity_set) in
      for_each invalid_chars (remove_invalid character o)
  end.

(** The body of the loop of [sync_proximity_bidirectional]. *)
Definition reciprocate (character other_char : value) : M unit :=
  let* adjacent := is_in_proximity other_char character in
  if negb adjacent
  then
    initialize_proximity other_char >>>
    let* o' := ndb_of other_char in
    set_add o' character >>>
    let* k := key_of character in
    let* k' := key_of other_char in
    log_debug "PROXIMITY" "SYNC" ("Added " ++ k ++ " to " ++ k' ++ "'s proximity")
  else ret tt.

Definition sync_proximity_bidirectional (character : value) : M unit :=
  let* o := ndb_of character in
  let* σ := get_state in
  match ndb_proximity (objs σ o) with
  | None => ret tt
  | Some StoredOther => ret tt
  | Some (StoredSet proximity_set) =>
      for_each (enumerate proximity_set) (reciprocate character)
  end.

End proximity.

(** ** Reading the state *)

(** The neighbour set of [o] as the queries see it: missing or malformed
    storage counts as empty. *)
Definition neighbors (σ : state) (o : objid) : gset value :=
  match ndb_proximity (objs σ o) with
  | Some (StoredSet s) => s
  | _ => ∅
  end.

(** Everything of an object but its proximity slot. *)
Definition same_identity (ob ob' : obj) : Prop :=
  key ob' = key ob ∧ truthy ob' = truthy ob ∧ attrs ob' = attrs ob.


(** The effect of the guarded removal
    [if hasattr(...) and isinstance(..., set): getattr(...).discard(v)]. *)
Definition discard_at (o : objid) (v : value) (σ : state) : state :=
  if is_proximity_set σ o then upd_obj o (map_set (λ s, s ∖ {[v]})) σ else σ.


(** [m] returns (does not raise) when run in [σ]. *)
Definition returns {A} (m : M A) (σ : state) : Prop :=
  ∃ x σ', m σ = (Return x, σ').


(** ** The removal rule of cleanup, in words *)

(** The location of [v] when it can be resolved: [v] has a [location]
    attribute and its value is not none. *)
Definition resolvable_location (σ : state) (v : value) : option value :=
  match v with
  | VNone => None
  | VRef o =>
      match attrs (objs σ o) !! "location" with
      | Some loc => if truth σ loc then Some loc else None
      | None => None
      end
  end.

(** The rule as the specification words it: [n] is removed from the set of
    [a] when [n] is null or invalid, or [n] has no resolvable location, or
    [a] has a resolvable location and it differs from the location of [n]. *)
Definition spec_cleanup_removes (σ : state) (a : objid) (n : value) : Prop :=
  truth σ n = false
  ∨ resolvable_location σ n = None
  ∨ ∃ la, resolvable_location σ (VRef a) = Some la ∧ Some la ≠ resolvable_location σ n.

(** The rule as the code applies it: the third case asks only that [a]
    has a [location] attribute, whatever its value, none included. *)
Definition cleanup_removes (σ : state) (a : objid) (n : value) : Prop :=
  truth σ n = false
  ∨ resolvable_location σ n = None
  ∨ ∃ la, attrs (objs σ a) !! "location" = Some la ∧ Some la ≠ resolvable_location σ n.



(** ** The rolls of an opposed roll, in words *)

(** One roll for each neighbour of the list that exposes the stat, in the
    order of the list, each roll made in the state the previous one left. *)
Fixpoint expected_rolls `{Attributes} (roll_stat : state → value → string → Z)
    (σ : state) (l : list value) (stat_name : string) : list (value * Z) :=
  match l with
  | [] => []
  | v :: l' =>
      if hasattr σ v stat_name
      then (v, roll_stat σ v stat_name) :: expected_rolls roll_stat (count_roll σ) l' stat_name
      else expected_rolls roll_stat σ l' stat_name
  end.




(** ** Properties of states used beyond the specified ones *)

(** From [σ] to [σ'] no object has changed its key, its truth value or
    its attributes: at most the proximity slots differ. *)
Definition only_proximity (σ σ' : state) : Prop :=
  ∀ c, same_identity (objs σ c) (objs σ' c).

(** A computation that, whatever its outcome, touches nothing of an
    object but its proximity slot. *)
Definition quiet {A} (m : M A) : Prop :=
  ∀ σ, only_proximity σ (m σ).2.

(** A graph without drift: the sets hold actors only, nobody holds
    itself, and every entry has its reciprocal. *)
Definition consistent (σ : state) : Prop :=
  (∀ a, VNone ∉ neighbors σ a)
  ∧ (∀ a, VRef a ∉ neighbors σ a)
  ∧ (∀ a b, VRef b ∈ neighbors σ a → VRef a ∈ neighbors σ b).

(** What cleanup leaves in the set of [a]: an object that is true, has a
    location that is true, and the very location of [a] when [a] has a
    [location] attribute. *)
Definition valid_neighbor (σ : state) (a : objid) (n : value) : Prop :=
  ∃ o loc, n = VRef o
    ∧ truthy (objs σ o) = true
    ∧ attrs (objs σ o) !! "location" = Some loc
    ∧ truth σ loc = true
    ∧ ∀ la, attrs (objs σ a) !! "location" = Some la → la = loc.


(** ** Sample states *)

(** An enumeration order to run the functions with. *)
Definition elements_order : SetOrder :=
  {| enumerate := elements; enumerate_perm := λ s, Permutation_refl (elements s) |}.

Definition anybody : obj := Obj "anybody" true ∅ None.

Definition actor (k : string) (s : gset value) : obj := Obj k true ∅ (Some (StoredSet s)).

(** Nobody has any storage yet. *)
Definition blank_state : state := State (λ _, anybody) [] 0.

(** Actor 1 holds actor 2, which has no storage at all. *)
Definition drift_state : state :=
  State (<[1 := actor "A" {[VRef 2]}]> (λ _, anybody)) [] 0.

(** Actor 1 holds 2 and 3, and each of them holds 1. *)
Definition trio_state : state :=
  State (<[1 := actor "A" {[VRef 2; VRef 3]}]>
         (<[2 := actor "B" {[VRef 1]}]>
          (<[3 := actor "C" {[VRef 1]}]> (λ _, anybody)))) [] 0.

(** Actors 2 and 3 hold 1, but 1 only holds 3. *)
Definition one_sided_state : state :=
  State (<[1 := actor "A" {[VRef 3]}]>
         (<[2 := actor "B" {[VRef 1]}]>
          (<[3 := actor "C" {[VRef 1]}]> (λ _, anybody)))) [] 0.

(** The set of actor 1 holds [None]. *)
Definition null_neighbor_state : state :=
  State (<[1 := actor "A" {[VNone]}]> (λ _, anybody)) [] 0.

(** Actor 1 has a [location] attribute whose value is [None]; its
    neighbour 2 is valid and stands in room 9. *)
Definition nowhere_state : state :=
  State (<[1 := Obj "A" true {["location" := VNone]} (Some (StoredSet {[VRef 2]}))]>
         (<[2 := Obj "B" true {["location" := VRef 9]} (Some (StoredSet {[VRef 1]}))]>
          (λ _, anybody))) [] 0.


(** The names of the attributes of [None] (those of [dir(None)]) and, for
    the sample objects, a class that provides [key], [ndb] and the names
    every Python object has. *)
Definition python_attributes : Attributes :=
  {| none_attr := λ name,
       bool_decide (name ∈ ["__bool__"; "__class__"; "__delattr__"; "__dir__"; "__doc__";
                            "__eq__"; "__format__"; "__ge__"; "__getattribute__"; "__gt__";
                            "__hash__"; "__init__"; "__init_subclass__"; "__le__"; "__lt__";
                            "__ne__"; "__new__"; "__reduce__"; "__reduce_ex__"; "__repr__";
                            "__setattr__"; "__sizeof__"; "__str__"; "__subclasshook__"]);
     class_attr := λ name,
       bool_decide (name ∈ ["key"; "ndb"; "__class__"; "__dict__"; "__doc__"; "__eq__";
                            "__hash__"; "__init__"; "__module__"; "__repr__"; "__str__"]);
     class_attr_key := eq_refl;
     class_attr_ndb := eq_refl;
     class_attr_class := eq_refl;
     class_attr_location := eq_refl;
     none_attr_class := eq_refl;
     none_attr_key := eq_refl;
     none_attr_ndb := eq_refl;
     none_attr_location := eq_refl |}.

(** An enumeration order that starts with [None] when the set holds it. *)
Definition none_first (s : gset value) : list value :=
  if decide (VNone ∈ s) then VNone :: elements (s ∖ {[VNone]}) else elements s.

Definition none_first_order : SetOrder.
Proof.
  refine {| enumerate := none_first |}.
  intros s. unfold none_first. destruct (decide (VNone ∈ s)) as [Hin|Hout].
  - rewrite (union_difference_singleton_L VNone s Hin) at 2.
    symmetry. apply elements_union_singleton. set_solver.
  - reflexivity.
Defined.

(** The set of actor 1 holds [None] and actor 2, which has no storage. *)
Definition null_and_drift_state : state :=
  State (<[1 := actor "A" {[VNone; VRef 2]}]> (λ _, anybody)) [] 0.

(** Actor 1 stands in room 9 and holds [None], actor 2, which stands in
    room 9 too, and actor 3, which stands in room 8. *)
Definition rooms_state : state :=
  State (<[1 := Obj "A" true {["location" := VRef 9]}
                  (Some (StoredSet {[VNone; VRef 2; VRef 3]}))]>
         (<[2 := Obj "B" true {["location" := VRef 9]} (Some (StoredSet {[VRef 1]}))]>
          (<[3 := Obj "C" true {["location" := VRef 8]} (Some (StoredSet {[VRef 1]}))]>
           (λ _, anybody)))) [] 0.


(** ** Basic facts *)

Lemma objs_upd_obj_eq o f σ : objs (upd_obj o f σ) o = f (objs σ o).
Proof. unfold upd_obj; simpl. apply fn_lookup_insert. Qed.

Lemma objs_upd_obj_ne o o' f σ : o ≠ o' → objs (upd_obj o f σ) o' = objs σ o'.
Proof. intros Hne. unfold upd_obj; simpl. by apply fn_lookup_insert_ne. Qed.

Lemma objs_upd_obj o o' f σ :
  objs (upd_obj o f σ) o' = if decide (o = o') then f (objs σ o) else objs σ o'.
Proof.
  destruct (decide (o = o')) as [<-|Hne].
  - apply objs_upd_obj_eq.
  - by apply objs_upd_obj_ne.
Qed.

Lemma is_proximity_set_true σ o :
  is_proximity_set σ o = true ↔ ∃ s, ndb_proximity (objs σ o) = Some (StoredSet s).
Proof.
  unfold is_proximity_set. destruct (ndb_proximity (objs σ o)) as [[s|]|].
  - split; [eauto | done].
  - split; [done | by intros [s ?]].
  - split; [done | by intros [s ?]].
Qed.

Lemma neighbors_stored σ o s :
  ndb_proximity (objs σ o) = Some (StoredSet s) → neighbors σ o = s.
Proof. unfold neighbors. by intros ->. Qed.

Lemma set_method_run σ o f s :
  ndb_proximity (objs σ o) = Some (StoredSet s) →
  set_method o f σ
  = (Return tt, upd_obj o (set_ndb_proximity (Some (StoredSet (f s)))) σ).
Proof.
  intros Hs. unfold set_method, is_proximity_set. rewrite Hs.
  unfold upd_obj, map_set. by rewrite Hs.
Qed.

Lemma neighbors_upd_set σ o o' x :
  neighbors (upd_obj o (set_ndb_proximity (Some (StoredSet x))) σ) o'
  = if decide (o = o') then x else neighbors σ o'.
Proof.
  unfold neighbors. rewrite objs_upd_obj. by destruct (decide (o = o')).
Qed.

Lemma is_proximity_set_upd_set σ o o' x :
  is_proximity_set (upd_obj o (set_ndb_proximity (Some (StoredSet x))) σ) o'
  = if decide (o = o') then true else is_proximity_set σ o'.
Proof.
  unfold is_proximity_set. rewrite objs_upd_obj. by destruct (decide (o = o')).
Qed.

Lemma bind_return {A B} (m : M A) (k : A → M B) σ a σ1 :
  m σ = (Return a, σ1) → bind m k σ = k a σ1.
Proof. unfold bind. by intros ->. Qed.

Lemma bind_raised {A B} (m : M A) (k : A → M B) σ e σ1 :
  m σ = (Raised e, σ1) → bind m k σ = (Raised e, σ1).
Proof. unfold bind. by intros ->. Qed.

Lemma bind_ret {A B} (a : A) (k : A → M B) σ : bind (ret a) k σ = k a σ.
Proof. done. Qed.

Lemma bind_ndb_of {B} o (k : objid → M B) σ : bind (ndb_of (VRef o)) k σ = k o σ.
Proof. done. Qed.

Lemma bind_key_of {B} o (k : string → M B) σ :
  bind (key_of (VRef o)) k σ = k (key (objs σ o)) σ.
Proof. done. Qed.

Lemma bind_get_state {B} (k : state → M B) σ : bind get_state k σ = k σ σ.
Proof. done. Qed.

Ltac step E := rewrite (bind_return _ _ _ _ _ E); cbv beta.


Lemma guarded_discard_run σ o v :
  (if is_proximity_set σ o then set_discard o v else ret tt) σ
  = (Return tt, discard_at o v σ).
Proof.
  unfold discard_at, set_discard, set_method.
  by destruct (is_proximity_set σ o) eqn:Hs; [rewrite Hs|].
Qed.

Lemma objs_discard_at_ne o o' v σ : o ≠ o' → objs (discard_at o v σ) o' = objs σ o'.
Proof.
  intros Hne. unfold discard_at. destruct (is_proximity_set σ o); [|done].
  by apply objs_upd_obj_ne.
Qed.

Lemma neighbors_discard_at o o' v σ :
  neighbors (discard_at o v σ) o'
  = if decide (o = o') then neighbors σ o ∖ {[v]} else neighbors σ o'.
Proof.
  unfold discard_at, neighbors, is_proximity_set.
  destruct (decide (o = o')) as [<-|Hne].
  - destruct (ndb_proximity (objs σ o)) as [[s|]|] eqn:Hs; rewrite ?Hs.
    + rewrite objs_upd_obj_eq. unfold map_set. by rewrite Hs.
    + by rewrite difference_disjoint_L by set_solver.
    + by rewrite difference_disjoint_L by set_solver.
  - destruct (ndb_proximity (objs σ o)) as [[s|]|]; try done.
    by rewrite objs_upd_obj_ne.
Qed.

Lemma is_proximity_set_discard_at o o' v σ :
  is_proximity_set (discard_at o v σ) o' = is_proximity_set σ o'.
Proof.
  unfold discard_at. destruct (is_proximity_set σ o) eqn:Hs; [|done].
  unfold is_proximity_set in *. rewrite objs_upd_obj.
  destruct (decide (o = o')) as [<-|]; [|done].
  unfold map_set. destruct (ndb_proximity (objs σ o)) as [[s|]|]; done.
Qed.


Section proximity_facts.
Context {order : SetOrder}.

Lemma elem_of_enumerate s x : x ∈ enumerate s ↔ x ∈ s.
Proof. rewrite (enumerate_perm s). apply elem_of_elements. Qed.

Lemma NoDup_enumerate s : NoDup (enumerate s).
Proof. rewrite (enumerate_perm s). apply NoDup_elements. Qed.

(** [is_in_proximity] on an object is a membership test on the view,
    guarded by the comparison of the two arguments, and reads only. *)
Lemma is_in_proximity_run σ a v :
  is_in_proximity (VRef a) v σ
  = (Return (bool_decide (v ≠ VRef a ∧ v ∈ neighbors σ a)), σ).
Proof.
  unfold is_in_proximity, neighbors.
  destruct (decide (VRef a = v)) as [<-|Hne].
  - unfold ret. f_equal. f_equal. symmetry. apply bool_decide_eq_false. tauto.
  - unfold bind, ndb_of, ret, get_state.
    destruct (ndb_proximity (objs σ a)) as [[s|]|]; f_equal; f_equal.
    + apply bool_decide_ext. split; [intros Hin; split; [congruence | done] | tauto].
    + symmetry. apply bool_decide_eq_false. intros [_ Hin]. by apply not_elem_of_empty in Hin.
    + symmetry. apply bool_decide_eq_false. intros [_ Hin]. by apply not_elem_of_empty in Hin.
Qed.

(** What a call of [initialize_proximity] on an object does. *)
Lemma initialize_proximity_run σ a :
  initialize_proximity (VRef a) σ
  = if is_proximity_set σ a then (Return false, σ)
    else (Return true,
          push_log (LogEntry "PROXIMITY" "INIT" ("Initialized for " ++ key (objs σ a)))
            (upd_obj a (set_ndb_proximity (Some (StoredSet ∅))) σ)).
Proof.
  unfold initialize_proximity, bind, ndb_of, ret, get_state, is_proximity_set.
  destruct (ndb_proximity (objs σ a)) as [[s|]|] eqn:Hs; simpl; try done.
  - unfold key_of. simpl. rewrite fn_lookup_insert. done.
  - unfold key_of. simpl. rewrite fn_lookup_insert. done.
Qed.


Lemma initialize_proximity_post σ a :
  ∃ σ1, initialize_proximity (VRef a) σ = (Return (negb (is_proximity_set σ a)), σ1)
    ∧ ndb_proximity (objs σ1 a) = Some (StoredSet (neighbors σ a))
    ∧ same_identity (objs σ a) (objs σ1 a)
    ∧ ∀ c, c ≠ a → objs σ1 c = objs σ c.
Proof.
  rewrite initialize_proximity_run. unfold neighbors, is_proximity_set.
  destruct (ndb_proximity (objs σ a)) as [[s|]|] eqn:Hs; simpl.
  - exists σ. by rewrite Hs.
  - eexists; split; [done|]. simpl. rewrite fn_lookup_insert.
    repeat split; try done. intros c Hc. by rewrite fn_lookup_insert_ne.
  - eexists; split; [done|]. simpl. rewrite fn_lookup_insert.
    repeat split; try done. intros c Hc. by rewrite fn_lookup_insert_ne.
Qed.

Lemma establish_proximity_run σ a b :
  a ≠ b →
  ∃ σ', establish_proximity (VRef a) (VRef b) σ = (Return tt, σ')
    ∧ ndb_proximity (objs σ' a) = Some (StoredSet (neighbors σ a ∪ {[VRef b]}))
    ∧ ndb_proximity (objs σ' b) = Some (StoredSet (neighbors σ b ∪ {[VRef a]}))
    ∧ ∀ c, c ≠ a → c ≠ b → objs σ' c = objs σ c.
Proof.
  intros Hne. unfold establish_proximity.
  destruct (decide (VRef a = VRef b)) as [[=]|_]; [done|].
  destruct (initialize_proximity_post σ a) as (σ1 & E1 & Ha1 & _ & Hfr1).
  destruct (initialize_proximity_post σ1 b) as (σ2 & E2 & Hb2 & _ & Hfr2).
  step E1. step E2. rewrite !bind_ndb_of.
  assert (Ha2 : ndb_proximity (objs σ2 a) = Some (StoredSet (neighbors σ a))).
  { by rewrite Hfr2. }
  step (set_method_run _ _ (λ s, s ∪ {[VRef b]}) _ Ha2).
  set (σ3 := upd_obj a _ σ2).
  assert (Hb3 : ndb_proximity (objs σ3 b) = Some (StoredSet (neighbors σ b))).
  { unfold σ3. rewrite objs_upd_obj_ne by done. rewrite Hb2.
    unfold neighbors. by rewrite Hfr1. }
  step (set_method_run _ _ (λ s, s ∪ {[VRef a]}) _ Hb3).
  rewrite !bind_key_of. unfold log_debug, modify.
  eexists; split; [done|]. simpl. rewrite fn_lookup_insert.
  rewrite fn_lookup_insert_ne by done. rewrite fn_lookup_insert.
  repeat split; try done.
  intros c Hca Hcb. rewrite !fn_lookup_insert_ne by done.
  rewrite Hfr2 by done. by apply Hfr1.
Qed.

Lemma break_proximity_run σ a b :
  a ≠ b →
  ∃ σ', break_proximity (VRef a) (VRef b) σ = (Return tt, σ')
    ∧ neighbors σ' a = neighbors σ a ∖ {[VRef b]}
    ∧ neighbors σ' b = neighbors σ b ∖ {[VRef a]}
    ∧ ∀ c, c ≠ a → c ≠ b → objs σ' c = objs σ c.
Proof.
  intros Hne. unfold break_proximity.
  destruct (decide (VRef a = VRef b)) as [[=]|_]; [done|].
  rewrite bind_ndb_of, bind_get_state.
  step (guarded_discard_run σ a (VRef b)).
  rewrite bind_ndb_of, bind_get_state.
  step (guarded_discard_run (discard_at a (VRef b) σ) b (VRef a)).
  rewrite !bind_key_of. unfold log_debug, modify.
  eexists; split; [done|].
  change (neighbors (push_log ?e ?s) ?o) with (neighbors s o).
  change (objs (push_log ?e ?s)) with (objs s).
  rewrite !neighbors_discard_at.
  repeat case_decide; try congruence.
  repeat split; try done.
  intros c Hca Hcb. by rewrite !objs_discard_at_ne.
Qed.

(** *** The loop of [clear_all_proximity] *)

Lemma forget_ref_run c o σ : forget c (VRef o) σ = (Return tt, discard_at o c σ).
Proof.
  unfold forget. rewrite bind_ndb_of, bind_get_state. apply guarded_discard_run.
Qed.

Lemma forget_none_run c σ : forget c VNone σ = (Raised AttributeError, σ).
Proof. done. Qed.

(** Whatever the outcome of the loop, it has only touched the sets of
    the objects it went through, and it has only removed entries. *)
Lemma forget_loop_frame c l σ :
  let σ' := (for_each l (forget c) σ).2 in
  (∀ o, VRef o ∉ l → objs σ' o = objs σ o)
  ∧ (∀ o, is_proximity_set σ' o = is_proximity_set σ o)
  ∧ (∀ o, neighbors σ' o ⊆ neighbors σ o)
  ∧ log σ' = log σ.
Proof.
  revert σ. induction l as [|[|b] l IH]; intros σ; simpl.
  - done.
  - done.
  - rewrite (bind_return _ _ _ _ _ (forget_ref_run c b σ)).
    destruct (IH (discard_at b c σ)) as (Hfr & Hset & Hsub & Hlog).
    split; [|split; [|split]].
    + intros o Ho. rewrite Hfr by set_solver.
      apply objs_discard_at_ne. set_solver.
    + intros o. by rewrite Hset, is_proximity_set_discard_at.
    + intros o. etrans; [apply Hsub|].
      rewrite neighbors_discard_at. case_decide; set_solver.
    + rewrite Hlog. unfold discard_at. by destruct (is_proximity_set σ b).
Qed.

Lemma forget_loop_ok c l σ :
  VNone ∉ l →
  ∃ σ', for_each l (forget c) σ = (Return tt, σ')
    ∧ ∀ o, VRef o ∈ l → c ∉ neighbors σ' o.
Proof.
  revert σ. induction l as [|[|b] l IH]; intros σ Hnone; simpl.
  - exists σ. split; [done|]. intros o Ho. by apply elem_of_nil in Ho.
  - exfalso. apply Hnone. left.
  - rewrite (bind_return _ _ _ _ _ (forget_ref_run c b σ)).
    destruct (IH (discard_at b c σ)) as (σ' & E & Hin); [set_solver|].
    exists σ'. split; [done|].
    intros o Ho. destruct (decide (VRef o ∈ l)) as [Hl|Hl]; [by apply Hin|].
    assert (o = b) as -> by set_solver.
    pose proof (forget_loop_frame c l (discard_at b c σ)) as (_ & _ & Hsub & _).
    rewrite E in Hsub. simpl in Hsub. specialize (Hsub b).
    rewrite neighbors_discard_at, decide_True in Hsub by done. set_solver.
Qed.

Lemma forget_loop_raises c l σ :
  VNone ∈ l → (for_each l (forget c) σ).1 = Raised AttributeError.
Proof.
  revert σ. induction l as [|[|b] l IH]; intros σ Hnone; simpl.
  - by apply elem_of_nil in Hnone.
  - done.
  - rewrite (bind_return _ _ _ _ _ (forget_ref_run c b σ)).
    apply IH. set_solver.
Qed.

(** *** The loop of [sync_proximity_bidirectional] *)

Lemma reciprocate_ref_run σ a b :
  ∃ σ', reciprocate (VRef a) (VRef b) σ = (Return tt, σ')
    ∧ neighbors σ' b = neighbors σ b ∪ {[VRef a]}
    ∧ ∀ c, c ≠ b → objs σ' c = objs σ c.
Proof.
  unfold reciprocate.
  step (is_in_proximity_run σ b (VRef a)).
  case_bool_decide as Hadj; simpl.
  - exists σ. split; [done|]. split; [set_solver|done].
  - destruct (initialize_proximity_post σ b) as (σ1 & E1 & Hb1 & _ & Hfr1).
    step E1. rewrite bind_ret.
    step (set_method_run _ _ (λ s, s ∪ {[VRef a]}) _ Hb1).
    rewrite !bind_key_of. unfold log_debug, modify.
    eexists; split; [done|].
    change (neighbors (push_log ?e ?s) ?o) with (neighbors s o).
    change (objs (push_log ?e ?s)) with (objs s).
    rewrite neighbors_upd_set, decide_True by done. split; [done|].
    intros c Hc. rewrite objs_upd_obj_ne by done. by apply Hfr1.
Qed.

Lemma reciprocate_none_run σ a :
  reciprocate (VRef a) VNone σ = (Raised AttributeError, σ).
Proof. done. Qed.

Lemma neighbors_frame σ σ' o : objs σ' o = objs σ o → neighbors σ' o = neighbors σ o.
Proof. unfold neighbors. by intros ->. Qed.

Lemma reciprocate_loop_ok a l σ :
  VNone ∉ l →
  ∃ σ', for_each l (reciprocate (VRef a)) σ = (Return tt, σ')
    ∧ ∀ o, neighbors σ' o
           = if decide (VRef o ∈ l) then neighbors σ o ∪ {[VRef a]} else neighbors σ o.
Proof.
  revert σ. induction l as [|[|b] l IH]; intros σ Hnone; cbn [for_each].
  - exists σ. split; [done|]. intros o. case_decide as Ho; [|done].
    by apply elem_of_nil in Ho.
  - exfalso. apply Hnone. left.
  - destruct (reciprocate_ref_run σ a b) as (σ1 & E1 & Hb1 & Hfr1).
    step E1.
    destruct (IH σ1) as (σ' & E & Hnb); [set_solver|].
    exists σ'. split; [done|].
    intros o. rewrite Hnb.
    destruct (decide (o = b)) as [->|Hob].
    + rewrite Hb1. repeat case_decide; set_solver.
    + rewrite (neighbors_frame σ σ1 o) by by apply Hfr1.
      repeat case_decide; set_solver.
Qed.

Lemma reciprocate_loop_raises a l σ :
  VNone ∈ l → (for_each l (reciprocate (VRef a)) σ).1 = Raised AttributeError.
Proof.
  revert σ. induction l as [|[|b] l IH]; intros σ Hnone; simpl.
  - by apply elem_of_nil in Hnone.
  - done.
  - destruct (reciprocate_ref_run σ a b) as (σ1 & E1 & _).
    step E1. apply IH. set_solver.
Qed.

Lemma enumerate_empty : enumerate ∅ = [].
Proof.
  apply Permutation_nil_r. rewrite (enumerate_perm ∅). by rewrite elements_empty.
Qed.

Lemma clear_all_proximity_run σ a s :
  ndb_proximity (objs σ a) = Some (StoredSet s) →
  VNone ∉ s →
  ∃ σ', clear_all_proximity (VRef a) σ = (Return tt, σ')
    ∧ ndb_proximity (objs σ' a) = Some (StoredSet ∅)
    ∧ ∀ b, VRef b ∈ s → VRef a ∉ neighbors σ' b.
Proof.
  intros Hs Hnone. unfold clear_all_proximity.
  rewrite bind_ndb_of, bind_get_state, Hs.
  destruct (forget_loop_ok (VRef a) (enumerate s) σ) as (σ1 & E1 & Hgone).
  { by rewrite elem_of_enumerate. }
  step E1.
  pose proof (forget_loop_frame (VRef a) (enumerate s) σ) as (_ & Hset & _).
  rewrite E1 in Hset. simpl in Hset.
  destruct (proj1 (is_proximity_set_true σ1 a)) as [s1 Hs1].
  { rewrite Hset. apply is_proximity_set_true. eauto. }
  step (set_method_run _ _ (λ _, ∅) _ Hs1).
  rewrite bind_key_of. unfold log_debug, modify.
  eexists; split; [done|].
  change (neighbors (push_log ?e ?s) ?o) with (neighbors s o).
  change (objs (push_log ?e ?s)) with (objs s).
  split; [by rewrite objs_upd_obj_eq|].
  intros b Hb. rewrite neighbors_upd_set.
  case_decide; [apply not_elem_of_empty|].
  apply Hgone. by rewrite elem_of_enumerate.
Qed.

Lemma bind_raised_fst {A B} (m : M A) (k : A → M B) σ e :
  (m σ).1 = Raised e → (bind m k σ).1 = Raised e.
Proof.
  unfold bind. destruct (m σ) as [[x|e'] σ1]; simpl; [discriminate|].
  by destruct e, e'.
Qed.


(** *** The loops of [cleanup_invalid_proximity] *)

Lemma is_invalid_removes σ a n : is_invalid σ a n = true ↔ cleanup_removes σ a n.
Proof.
  unfold is_invalid, cleanup_removes, resolvable_location.
  destruct n as [|o]; simpl; [by split; [left|]|].
  destruct (truthy (objs σ o)) eqn:Ht; simpl; [|by split; [left|]].
  destruct (attrs (objs σ o) !! "location") as [ln|] eqn:Hln;
    [|by split; [right; left|]].
  destruct (truth σ ln) eqn:Htl; simpl; [|by split; [right; left|]].
  destruct (attrs (objs σ a) !! "location") as [la|] eqn:Hla.
  - rewrite bool_decide_eq_true. split.
    + intros Hne. right; right. exists la. split; [done|]. congruence.
    + intros [?|[?|(la' & [= <-] & Hne)]]; [done..|]. congruence.
  - split; [done|]. by intros [?|[?|(la' & ? & _)]].
Qed.

Lemma remove_invalid_run a v σ s :
  ndb_proximity (objs σ a) = Some (StoredSet s) →
  ∃ σ', remove_invalid (VRef a) a v σ = (Return tt, σ')
    ∧ ndb_proximity (objs σ' a) = Some (StoredSet (s ∖ {[v]}))
    ∧ same_identity (objs σ a) (objs σ' a)
    ∧ ∀ b, b ≠ a → objs σ' b = objs σ b.
Proof.
  intros Hs. unfold remove_invalid.
  step (set_method_run _ _ (λ s, s ∖ {[v]}) _ Hs).
  rewrite bind_get_state, bind_key_of. unfold log_debug, modify.
  eexists; split; [done|]. simpl. rewrite fn_lookup_insert.
  repeat split; try done. intros b Hb. by rewrite fn_lookup_insert_ne.
Qed.

Lemma remove_invalid_loop a l σ s :
  ndb_proximity (objs σ a) = Some (StoredSet s) →
  ∃ σ', for_each l (remove_invalid (VRef a) a) σ = (Return tt, σ')
    ∧ ndb_proximity (objs σ' a) = Some (StoredSet (s ∖ list_to_set l))
    ∧ same_identity (objs σ a) (objs σ' a)
    ∧ ∀ b, b ≠ a → objs σ' b = objs σ b.
Proof.
  revert σ s. induction l as [|v l IH]; intros σ s Hs; cbn [for_each].
  - exists σ. split; [done|]. rewrite list_to_set_nil, difference_empty_L.
    by repeat split.
  - destruct (remove_invalid_run a v σ s Hs) as (σ1 & E1 & Hs1 & Hid1 & Hfr1).
    step E1.
    destruct (IH σ1 _ Hs1) as (σ' & E & Hs' & Hid & Hfr).
    exists σ'. split; [done|]. split; [|split].
    + rewrite Hs'. f_equal. f_equal. rewrite list_to_set_cons. set_solver.
    + destruct Hid as (Hk & Ht & Hat), Hid1 as (Hk1 & Ht1 & Hat1).
      repeat split; congruence.
    + intros b Hb. rewrite Hfr by done. by apply Hfr1.
Qed.



(** Whatever its outcome, the loop of sync only adds entries. *)
Lemma reciprocate_loop_grows a l σ o :
  neighbors σ o ⊆ neighbors (for_each l (reciprocate (VRef a)) σ).2 o.
Proof.
  revert σ. induction l as [|[|b] l IH]; intros σ; cbn [for_each].
  - done.
  - done.
  - destruct (reciprocate_ref_run σ a b) as (σ1 & E1 & Hb1 & Hfr1).
    step E1. etrans; [|apply IH].
    destruct (decide (o = b)) as [->|Hne].
    + rewrite Hb1. set_solver.
    + by rewrite (neighbors_frame σ σ1 o) by by apply Hfr1.
Qed.

(** [sync_proximity_bidirectional] never removes an entry from any set,
    also when it raises on the way. *)
Lemma sync_proximity_bidirectional_grows σ a o :
  neighbors σ o ⊆ neighbors (sync_proximity_bidirectional (VRef a) σ).2 o.
Proof.
  unfold sync_proximity_bidirectional. rewrite bind_ndb_of, bind_get_state.
  destruct (ndb_proximity (objs σ a)) as [[s|]|]; [|done..].
  apply reciprocate_loop_grows.
Qed.

(** The calls that cannot raise: on actors, every operation but the two
    that walk through the neighbours' own storage returns in every state,
    whatever the storage holds; these two return when no member of the
    set is [None]. *)
Lemma operations_return σ a b :
  returns (initialize_proximity (VRef a)) σ
  ∧ returns (establish_proximity (VRef a) (VRef b)) σ
  ∧ returns (break_proximity (VRef a) (VRef b)) σ
  ∧ returns (get_proximity_list (VRef a)) σ
  ∧ returns (is_in_proximity (VRef a) (VRef b)) σ
  ∧ returns (cleanup_invalid_proximity (VRef a)) σ
  ∧ (VNone ∉ neighbors σ a →
     returns (clear_all_proximity (VRef a)) σ
     ∧ returns (sync_proximity_bidirectional (VRef a)) σ).
Proof.
  unfold returns. split; [|split; [|split; [|split; [|split; [|split; [|intros Hnone; split]]]]]].
  - destruct (initialize_proximity_post σ a) as (σ1 & E & _). eauto.
  - destruct (decide (a = b)) as [->|Hne].
    + unfold establish_proximity. rewrite decide_True by done. by eexists _, _.
    + destruct (establish_proximity_run σ a b Hne) as (σ1 & E & _). eauto.
  - destruct (decide (a = b)) as [->|Hne].
    + unfold break_proximity. rewrite decide_True by done. by eexists _, _.
    + destruct (break_proximity_run σ a b Hne) as (σ1 & E & _). eauto.
  - unfold get_proximity_list. rewrite bind_ndb_of, bind_get_state.
    destruct (ndb_proximity (objs σ a)) as [[s|]|]; by eexists _, _.
  - rewrite is_in_proximity_run. eauto.
  - unfold cleanup_invalid_proximity. rewrite bind_ndb_of, bind_get_state.
    destruct (ndb_proximity (objs σ a)) as [[s|]|] eqn:Hs; [|by eexists _, _..].
    edestruct (remove_invalid_loop a) as (σ1 & E & _); [exact Hs|]. eauto.
  - unfold neighbors in Hnone.
    destruct (ndb_proximity (objs σ a)) as [[s|]|] eqn:Hs.
    + destruct (clear_all_proximity_run σ a s Hs Hnone) as (σ1 & E & _). eauto.
    + unfold clear_all_proximity. rewrite bind_ndb_of, bind_get_state, Hs. by eexists _, _.
    + unfold clear_all_proximity. rewrite bind_ndb_of, bind_get_state, Hs. by eexists _, _.
  - unfold sync_proximity_bidirectional. rewrite bind_ndb_of, bind_get_state.
    unfold neighbors in Hnone.
    destruct (ndb_proximity (objs σ a)) as [[s|]|] eqn:Hs; [|by eexists _, _..].
    destruct (reciprocate_loop_ok a (enumerate s) σ) as (σ1 & E & _); [|eauto].
    by rewrite elem_of_enumerate.
Qed.

(** ** The specified properties *)

(** C1. Symmetry after establish: for distinct actors [a] and [b], in any
    state, [establish_proximity a b] returns, and afterwards both
    [is_in_proximity a b] and [is_in_proximity b a] answer [True]. *)
Theorem establish_proximity_symmetric σ a b :
  a ≠ b →
  ∃ σ', establish_proximity (VRef a) (VRef b) σ = (Return tt, σ')
    ∧ is_in_proximity (VRef a) (VRef b) σ' = (Return true, σ')
    ∧ is_in_proximity (VRef b) (VRef a) σ' = (Return true, σ').
Proof.
  intros Hne.
  destruct (establish_proximity_run σ a b Hne) as (σ' & E & Ha & Hb & _).
  exists σ'. split; [done|].
  rewrite !is_in_proximity_run.
  rewrite (neighbors_stored _ _ _ Ha), (neighbors_stored _ _ _ Hb).
  split; f_equal; f_equal; apply bool_decide_eq_true.
  - split; [congruence | set_solver].
  - split; [congruence | set_solver].
Qed.

(** C7. No self-loop: [establish_proximity a a] changes nothing at all
    (so every neighbour list is as before), and [is_in_proximity a a]
    answers [False] in every state, whatever the stored set of [a]
    contains. *)
Theorem no_self_loop σ (a : value) :
  establish_proximity a a σ = (Return tt, σ)
  ∧ get_proximity_list a (establish_proximity a a σ).2 = get_proximity_list a σ
  ∧ is_in_proximity a a σ = (Return false, σ).
Proof.
  unfold establish_proximity, is_in_proximity.
  rewrite !decide_True by done. done.
Qed.

(** C8. Break is symmetric: for distinct actors [a] and [b],
    [establish_proximity a b] followed by [break_proximity a b] leaves a
    state in which [is_in_proximity a b] and [is_in_proximity b a] both
    answer [False]. *)
Theorem break_after_establish σ a b :
  a ≠ b →
  ∃ σ1 σ2, establish_proximity (VRef a) (VRef b) σ = (Return tt, σ1)
    ∧ break_proximity (VRef a) (VRef b) σ1 = (Return tt, σ2)
    ∧ is_in_proximity (VRef a) (VRef b) σ2 = (Return false, σ2)
    ∧ is_in_proximity (VRef b) (VRef a) σ2 = (Return false, σ2).
Proof.
  intros Hne.
  destruct (establish_proximity_run σ a b Hne) as (σ1 & E1 & _).
  destruct (break_proximity_run σ1 a b Hne) as (σ2 & E2 & Ha & Hb & _).
  exists σ1, σ2. split; [done|]. split; [done|].
  rewrite !is_in_proximity_run, Ha, Hb.
  split; f_equal; f_equal; apply bool_decide_eq_false; set_solver.
Qed.

(** C9. [initialize_proximity] answers [True] exactly when the storage
    of the actor is missing or is not a set; it then installs a fresh
    empty set and touches nothing else but the log; otherwise it answers
    [False] and the state is as before.  A second call in a row answers
    [False] and changes nothing. *)
Theorem initialize_proximity_idempotent σ a :
  ∃ σ1, initialize_proximity (VRef a) σ = (Return (negb (is_proximity_set σ a)), σ1)
    ∧ (if is_proximity_set σ a then σ1 = σ
       else ndb_proximity (objs σ1 a) = Some (StoredSet ∅)
            ∧ same_identity (objs σ a) (objs σ1 a)
            ∧ ∀ c, c ≠ a → objs σ1 c = objs σ c)
    ∧ initialize_proximity (VRef a) σ1 = (Return false, σ1).
Proof.
  destruct (initialize_proximity_post σ a) as (σ1 & E & Hs & Hid & Hfr).
  exists σ1. split; [done|]. split.
  - rewrite initialize_proximity_run in E.
    destruct (is_proximity_set σ a) eqn:Hset.
    + congruence.
    + unfold neighbors in Hs. unfold is_proximity_set in Hset.
      destruct (ndb_proximity (objs σ a)) as [[s|]|]; done.
  - rewrite initialize_proximity_run.
    assert (is_proximity_set σ1 a = true) as ->; [|done].
    apply is_proximity_set_true. eauto.
Qed.


(** C6. ClearAll removes all traces: when the set of [a] is [{b, c}],
    [clear_all_proximity a] returns; afterwards the neighbour list of
    [a] is empty and neither [is_in_proximity b a] nor
    [is_in_proximity c a] holds. *)
Theorem clear_all_proximity_removes_traces σ a b c :
  ndb_proximity (objs σ a) = Some (StoredSet {[VRef b; VRef c]}) →
  ∃ σ', clear_all_proximity (VRef a) σ = (Return tt, σ')
    ∧ get_proximity_list (VRef a) σ' = (Return [], σ')
    ∧ is_in_proximity (VRef b) (VRef a) σ' = (Return false, σ')
    ∧ is_in_proximity (VRef c) (VRef a) σ' = (Return false, σ').
Proof.
  intros Hs.
  destruct (clear_all_proximity_run σ a _ Hs) as (σ' & E & Ha & Hgone); [set_solver|].
  exists σ'. split; [done|]. split; [|split].
  - unfold get_proximity_list. rewrite bind_ndb_of, bind_get_state, Ha.
    by rewrite enumerate_empty.
  - rewrite is_in_proximity_run. f_equal. f_equal. apply bool_decide_eq_false.
    intros [_ Hin]. apply (Hgone b); [set_solver | done].
  - rewrite is_in_proximity_run. f_equal. f_equal. apply bool_decide_eq_false.
    intros [_ Hin]. apply (Hgone c); [set_solver | done].
Qed.

(** C10. [clear_all_proximity a] only reaches the actors of the set of
    [a]: an actor [b] that is not in that set keeps its whole record,
    its neighbour set included, whatever the outcome of the call; so
    when [b] holds [a] while [a] does not hold [b], [a] is still in the
    set of [b] afterwards. *)
Theorem clear_all_proximity_frame σ a b :
  b ≠ a →
  VRef b ∉ neighbors σ a →
  let σ' := (clear_all_proximity (VRef a) σ).2 in
  objs σ' b = objs σ b
  ∧ neighbors σ' b = neighbors σ b
  ∧ (VRef a ∈ neighbors σ b →
     is_in_proximity (VRef b) (VRef a) σ' = (Return true, σ')).
Proof.
  intros Hne Hnot.
  assert (Hobj : objs (clear_all_proximity (VRef a) σ).2 b = objs σ b).
  { unfold clear_all_proximity. rewrite bind_ndb_of, bind_get_state.
    destruct (ndb_proximity (objs σ a)) as [[s|]|] eqn:Hs; [|done..].
    rewrite (neighbors_stored _ _ _ Hs) in Hnot.
    pose proof (forget_loop_frame (VRef a) (enumerate s) σ) as (Hfr & Hset & _).
    unfold bind at 1.
    destruct (for_each (enumerate s) (forget (VRef a)) σ) as [[[]|e] σ1]; simpl in *.
    - destruct (proj1 (is_proximity_set_true σ1 a)) as [s1 Hs1].
      { rewrite Hset. apply is_proximity_set_true. eauto. }
      step (set_method_run _ _ (λ _, ∅) _ Hs1).
      rewrite bind_key_of. unfold log_debug, modify. simpl.
      rewrite fn_lookup_insert_ne by done.
      apply Hfr. by rewrite elem_of_enumerate.
    - apply Hfr. by rewrite elem_of_enumerate. }
  intros σ'. split; [done|].
  assert (Hnb : neighbors σ' b = neighbors σ b) by by apply neighbors_frame.
  split; [done|]. intros Hin.
  rewrite is_in_proximity_run, Hnb. f_equal. f_equal.
  apply bool_decide_eq_true. split; [congruence | done].
Qed.

(** C3. The no-throw policy fails on a null neighbour: when the set of
    [a] contains [None], [clear_all_proximity a] and
    [sync_proximity_bidirectional a] both raise [AttributeError]. *)
Theorem null_neighbor_raises σ a s :
  ndb_proximity (objs σ a) = Some (StoredSet s) →
  VNone ∈ s →
  (clear_all_proximity (VRef a) σ).1 = Raised AttributeError
  ∧ (sync_proximity_bidirectional (VRef a) σ).1 = Raised AttributeError.
Proof.
  intros Hs Hnone. split.
  - unfold clear_all_proximity. rewrite bind_ndb_of, bind_get_state, Hs.
    apply bind_raised_fst, forget_loop_raises. by rewrite elem_of_enumerate.
  - unfold sync_proximity_bidirectional. rewrite bind_ndb_of, bind_get_state, Hs.
    apply reciprocate_loop_raises. by rewrite elem_of_enumerate.
Qed.

(** C5. The repair stops at a null neighbour: when the set of [a] holds
    [None] and the enumeration meets it first,
    [sync_proximity_bidirectional a] raises [AttributeError] with the
    state untouched, so that a neighbour [b] that did not hold [a] still
    does not: [is_in_proximity b a] answers [False] after the call. *)
Theorem sync_proximity_bidirectional_null_first σ a s rest b :
  ndb_proximity (objs σ a) = Some (StoredSet s) →
  enumerate s = VNone :: rest →
  VRef b ∈ s →
  b ≠ a →
  VRef a ∉ neighbors σ b →
  sync_proximity_bidirectional (VRef a) σ = (Raised AttributeError, σ)
  ∧ is_in_proximity (VRef b) (VRef a) σ = (Return false, σ).
Proof.
  intros Hs Hfirst Hb Hne Hnot. split.
  - unfold sync_proximity_bidirectional.
    rewrite bind_ndb_of, bind_get_state, Hs, Hfirst. cbn [for_each].
    by rewrite (bind_raised _ _ _ _ _ (reciprocate_none_run σ a)).
  - rewrite is_in_proximity_run. f_equal. f_equal.
    apply bool_decide_eq_false. by intros [_ Hin].
Qed.


(** C2, as amended. When the storage of [a] is a set,
    [cleanup_invalid_proximity a] returns and has removed a neighbour
    [n] from the set of [a] exactly when [n] is null or not valid, or
    [n] has no resolvable location, or [a] has a [location] attribute,
    whatever its value, and it differs from the location of [n]; it
    removes nothing else, adds nothing, and leaves every other object,
    and the rest of [a], as they were. *)
Theorem cleanup_invalid_proximity_removes σ a s :
  ndb_proximity (objs σ a) = Some (StoredSet s) →
  ∃ σ' s', cleanup_invalid_proximity (VRef a) σ = (Return tt, σ')
    ∧ ndb_proximity (objs σ' a) = Some (StoredSet s')
    ∧ s' ⊆ s
    ∧ (∀ n, n ∈ s → (n ∉ s' ↔ cleanup_removes σ a n))
    ∧ same_identity (objs σ a) (objs σ' a)
    ∧ (∀ b, b ≠ a → objs σ' b = objs σ b).
Proof.
  intros Hs. unfold cleanup_invalid_proximity.
  rewrite bind_ndb_of, bind_get_state, Hs.
  set (invalid_chars := filter _ _).
  destruct (remove_invalid_loop a invalid_chars σ s Hs) as (σ' & E & Hs' & Hid & Hfr).
  exists σ', (s ∖ list_to_set invalid_chars).
  split; [done|]. split; [done|]. split; [set_solver|]. split; [|done].
  intros n Hn. rewrite <- is_invalid_removes.
  rewrite elem_of_difference, elem_of_list_to_set.
  unfold invalid_chars. rewrite list_elem_of_filter, elem_of_enumerate.
  split.
  - intros Hout. destruct (is_invalid σ a n) eqn:Hinv; [done|].
    exfalso. apply Hout. split; [done|]. intros [? _]. congruence.
  - intros Hinv [_ Hout]. apply Hout. done.
Qed.


End proximity_facts.

Section opposed_roll_facts.
Context {order : SetOrder} {attributes : Attributes}.

(** *** The loop and the maximum of [proximity_opposed_roll] *)

Variable roll_stat : state → value → string → Z.

Lemma hasattr_count_roll n σ v stat :
  hasattr (Nat.iter n count_roll σ) v stat = hasattr σ v stat.
Proof. induction n as [|n IH]; [done|]. rewrite <- IH. by destruct v. Qed.

Lemma iter_count_roll_S n σ :
  Nat.iter n count_roll (count_roll σ) = Nat.iter (S n) count_roll σ.
Proof. induction n as [|n IH]; [done|]. simpl in *. by rewrite IH. Qed.

Lemma collect_rolls_run l stat acc σ :
  collect_rolls roll_stat l stat acc σ
  = (Return (acc ++ expected_rolls roll_stat σ l stat)%list,
     Nat.iter (length (expected_rolls roll_stat σ l stat)) count_roll σ).
Proof.
  revert acc σ. induction l as [|v l IH]; intros acc σ; simpl.
  - by rewrite app_nil_r.
  - rewrite bind_get_state. destruct (hasattr σ v stat) eqn:Hv.
    + unfold bind at 1, call_roll_stat. rewrite IH, <- app_assoc. simpl.
      f_equal. apply iter_count_roll_S.
    + apply IH.
Qed.

Lemma expected_rolls_opponents σ l stat :
  (expected_rolls roll_stat σ l stat).*1 = filter (λ v, hasattr σ v stat = true) l.
Proof.
  revert σ. induction l as [|v l IH]; intros σ; simpl; [done|].
  rewrite filter_cons. destruct (hasattr σ v stat) eqn:Hv.
  - rewrite decide_True by done. simpl. f_equal. rewrite IH.
    apply list_filter_iff. intros x. by destruct x.
  - rewrite decide_False by done. apply IH.
Qed.

Lemma expected_rolls_values σ l stat i o r :
  expected_rolls roll_stat σ l stat !! i = Some (o, r) →
  r = roll_stat (Nat.iter i count_roll σ) o stat.
Proof.
  revert σ i. induction l as [|v l IH]; intros σ i; simpl; [done|].
  destruct (hasattr σ v stat).
  - destruct i as [|i]; simpl.
    + by intros [= -> ->].
    + intros Hi. apply IH in Hi. by rewrite iter_count_roll_S in Hi.
  - apply IH.
Qed.

Lemma py_max_first {A} (keyf : A → Z) (best : A) (rest : list A) :
  ∃ i, (best :: rest) !! i = Some (py_max keyf best rest)
    ∧ ∀ j x, (best :: rest) !! j = Some x →
        (keyf x ≤ keyf (py_max keyf best rest))%Z
        ∧ (j < i → (keyf x < keyf (py_max keyf best rest))%Z).
Proof.
  revert best. induction rest as [|y rest IH]; intros best; simpl.
  - exists 0. split; [done|]. intros [|j] x; simpl; [|done].
    intros [= ->]. split; lia.
  - destruct (Z.ltb_spec (keyf best) (keyf y)) as [Hlt|Hge].
    + destruct (IH y) as (i & Hi & Hall). exists (S i). split; [done|].
      intros [|j] x; simpl.
      * intros [= ->]. destruct (Hall 0 y eq_refl) as [Hle _]. split; lia.
      * intros Hj. destruct (Hall j x Hj) as [Hle Hlt']. split; [done|]. lia.
    + destruct (IH best) as (i & Hi & Hall).
      destruct i as [|i].
      * exists 0. split; [done|]. simpl in Hi. injection Hi as Hi.
        intros [|[|j]] x; simpl.
        -- intros [= ->]. rewrite <- Hi. split; lia.
        -- intros [= ->]. rewrite <- Hi. split; lia.
        -- intros Hj. destruct (Hall (S j) x Hj) as [Hle _]. split; [done|]. lia.
      * exists (S (S i)). split; [done|].
        destruct (Hall 0 best eq_refl) as [_ Hbest].
        intros [|[|j]] x; simpl.
        -- intros [= ->]. split; lia.
        -- intros [= ->]. split; lia.
        -- intros Hj. destruct (Hall (S j) x Hj) as [Hle Hlt']. split; [done|]. lia.
Qed.

Lemma get_proximity_list_run σ a :
  get_proximity_list (VRef a) σ
  = (Return match ndb_proximity (objs σ a) with
            | Some (StoredSet s) => enumerate s
            | _ => []
            end, σ).
Proof.
  unfold get_proximity_list. rewrite bind_ndb_of, bind_get_state.
  by destruct (ndb_proximity (objs σ a)) as [[s|]|].
Qed.

Lemma rolls_made_iter n σ : rolls_made (Nat.iter n count_roll σ) = rolls_made σ + n.
Proof. induction n as [|n IH]; simpl; [lia|]. rewrite IH. lia. Qed.

Lemma objs_iter_count_roll n σ : objs (Nat.iter n count_roll σ) = objs σ.
Proof. induction n as [|n IH]; [done|]. by simpl. Qed.

Lemma log_iter_count_roll n σ : log (Nat.iter n count_roll σ) = log σ.
Proof. induction n as [|n IH]; [done|]. by simpl. Qed.

Lemma proximity_opposed_roll_run σ a stat :
  proximity_opposed_roll roll_stat (VRef a) stat σ
  = let l := match ndb_proximity (objs σ a) with
             | Some (StoredSet s) => enumerate s
             | _ => []
             end in
    let rolls := expected_rolls roll_stat σ l stat in
    (Return match rolls with
            | [] => (0%Z, VNone, [])
            | first :: others =>
                let '(highest_opponent, highest_roll) := py_max snd first others in
                (highest_roll, highest_opponent, rolls)
            end,
     Nat.iter (length rolls) count_roll σ).
Proof.
  unfold proximity_opposed_roll. step (get_proximity_list_run σ a).
  generalize (match ndb_proximity (objs σ a) with
              | Some (StoredSet s) => enumerate s
              | _ => []
              end).
  intros [|v l]; [done|].
  rewrite (bind_return _ _ _ _ _ (collect_rolls_run (v :: l) stat [] σ)).
  rewrite app_nil_l. cbv zeta.
  destruct (expected_rolls roll_stat σ (v :: l) stat) as [|first others]; [done|].
  by destruct (py_max snd first others).
Qed.

(** [hasattr] on the names the module itself reads: every object has a
    [key] and an [ndb], [None] has neither, and [location] is there when
    the instance holds it. *)
Lemma hasattr_known σ o :
  hasattr σ (VRef o) "key" = true
  ∧ hasattr σ (VRef o) "ndb" = true
  ∧ hasattr σ (VRef o) "__class__" = true
  ∧ hasattr σ VNone "__class__" = true
  ∧ hasattr σ VNone "key" = false
  ∧ hasattr σ VNone "ndb" = false
  ∧ hasattr σ VNone "location" = false
  ∧ hasattr σ (VRef o) "location" = bool_decide (is_Some (attrs (objs σ o) !! "location")).
Proof.
  unfold hasattr.
  rewrite class_attr_key, class_attr_ndb, class_attr_class, class_attr_location.
  rewrite none_attr_class, none_attr_key, none_attr_ndb, none_attr_location.
  done.
Qed.

(** C4. [proximity_opposed_roll a stat] walks the list of the neighbours
    of [a], which holds each member of the set of [a] once (and is empty
    without a proper set); it makes one roll for each neighbour of the
    list that exposes [stat], in the order of the list, and collects the
    pairs in that order; with no pair (an empty list, or no neighbour
    exposing the stat) it answers [(0, None, [])]; otherwise it answers
    the pair of the highest roll, and among equal highest rolls the first
    of the list, with all the pairs. *)
Theorem proximity_opposed_roll_highest σ a stat :
  let l := match ndb_proximity (objs σ a) with
           | Some (StoredSet s) => enumerate s
           | _ => []
           end in
  let rolls := expected_rolls roll_stat σ l stat in
  let σ' := Nat.iter (length rolls) count_roll σ in
  get_proximity_list (VRef a) σ = (Return l, σ)
  ∧ NoDup l
  ∧ (∀ v, v ∈ l ↔ v ∈ neighbors σ a)
  ∧ collect_rolls roll_stat l stat [] σ = (Return rolls, σ')
  ∧ rolls.*1 = filter (λ v, hasattr σ v stat = true) l
  ∧ (∀ i o r, rolls !! i = Some (o, r) →
       r = roll_stat (Nat.iter i count_roll σ) o stat)
  ∧ rolls_made σ' = rolls_made σ + length (filter (λ v, hasattr σ v stat = true) l)
  ∧ objs σ' = objs σ
  ∧ log σ' = log σ
  ∧ match rolls with
    | [] =>
        proximity_opposed_roll roll_stat (VRef a) stat σ
        = (Return (0%Z, VNone, []), σ')
    | _ :: _ =>
        ∃ i highest_opponent highest_roll,
          rolls !! i = Some (highest_opponent, highest_roll)
          ∧ (∀ j o r, rolls !! j = Some (o, r) →
               (r ≤ highest_roll)%Z ∧ (j < i → (r < highest_roll)%Z))
          ∧ proximity_opposed_roll roll_stat (VRef a) stat σ
            = (Return (highest_roll, highest_opponent, rolls), σ')
    end.
Proof.
  intros l rolls σ'.
  split; [apply get_proximity_list_run|].
  split.
  { unfold l. destruct (ndb_proximity (objs σ a)) as [[s|]|];
      [rewrite (enumerate_perm s); apply NoDup_elements | apply NoDup_nil_2..]. }
  split.
  { intros v. unfold l, neighbors.
    destruct (ndb_proximity (objs σ a)) as [[s|]|].
    - rewrite (enumerate_perm s). apply elem_of_elements.
    - split; [by intros ?%elem_of_nil | by intros ?%not_elem_of_empty].
    - split; [by intros ?%elem_of_nil | by intros ?%not_elem_of_empty]. }
  split; [by rewrite collect_rolls_run, app_nil_l|].
  split; [apply expected_rolls_opponents|].
  split; [apply expected_rolls_values|].
  split.
  { unfold σ'. rewrite rolls_made_iter. f_equal.
    by rewrite <- (expected_rolls_opponents σ l stat), length_fmap. }
  split; [apply objs_iter_count_roll|].
  split; [apply log_iter_count_roll|].
  rewrite proximity_opposed_roll_run. fold l. cbv zeta. fold rolls. fold σ'.
  destruct rolls as [|first others]; [done|].
  destruct (py_max_first snd first others) as (i & Hi & Hall).
  destruct (py_max snd first others) as [ho hr].
  exists i, ho, hr. split; [done|]. split; [|done].
  intros j o r Hj. apply (Hall j (o, r) Hj).
Qed.


(** With nobody to roll, the answer is the sentinel and nothing has
    happened: an actor without storage, with an empty set, or whose
    neighbours do not expose the stat. *)
Lemma proximity_opposed_roll_sentinel σ a stat :
  (∀ v, v ∈ neighbors σ a → hasattr σ v stat = false) →
  proximity_opposed_roll roll_stat (VRef a) stat σ = (Return (0%Z, VNone, []), σ).
Proof.
  intros Hno. rewrite proximity_opposed_roll_run. cbv zeta.
  set (l := match ndb_proximity (objs σ a) with
            | Some (StoredSet s) => enumerate s
            | _ => []
            end).
  assert (Hl : ∀ v, v ∈ l → v ∈ neighbors σ a).
  { intros v. unfold l, neighbors.
    destruct (ndb_proximity (objs σ a)) as [[s|]|]; rewrite ?elem_of_enumerate;
      try done; by intros ?%elem_of_nil. }
  assert (expected_rolls roll_stat σ l stat = []) as ->; [|done].
  apply fmap_nil_inv with (f := fst). rewrite expected_rolls_opponents.
  destruct (filter _ l) as [|x xs] eqn:Hf; [done|]. exfalso.
  assert (Hx : x ∈ filter (λ v, hasattr σ v stat = true) l) by (rewrite Hf; left).
  apply list_elem_of_filter in Hx as [Hx1 Hx2].
  rewrite (Hno x) in Hx1 by by apply Hl. done.
Qed.

(** The example of the specification: neighbours enumerated as
    [X, Y, Z], all exposing the stat, rolling 5, 9 and 9 in turn. *)
Lemma proximity_opposed_roll_tie σ a s stat X Y Z :
  ndb_proximity (objs σ a) = Some (StoredSet s) →
  enumerate s = [X; Y; Z] →
  hasattr σ X stat = true → hasattr σ Y stat = true → hasattr σ Z stat = true →
  roll_stat σ X stat = 5%Z →
  roll_stat (count_roll σ) Y stat = 9%Z →
  roll_stat (count_roll (count_roll σ)) Z stat = 9%Z →
  (proximity_opposed_roll roll_stat (VRef a) stat σ).1
  = Return (9%Z, Y, [(X, 5%Z); (Y, 9%Z); (Z, 9%Z)]).
Proof.
  intros Hs Hl HX HY HZ H5 H9 H9'. unfold proximity_opposed_roll.
  step (get_proximity_list_run σ a). rewrite Hs, Hl.
  rewrite (bind_return _ _ _ _ _ (collect_rolls_run [X; Y; Z] stat [] σ)).
  simpl. rewrite HX. simpl.
  assert (hasattr (count_roll σ) Y stat = true) as -> by by destruct Y.
  assert (hasattr (count_roll (count_roll σ)) Z stat = true) as -> by by destruct Z.
  simpl. by rewrite H5, H9, H9'.
Qed.

End opposed_roll_facts.


(** ** The properties on sample states *)

Lemma establish_proximity_symmetric_witness :
  1 ≠ 2
  ∧ ∃ σ', establish_proximity (VRef 1) (VRef 2) blank_state = (Return tt, σ')
      ∧ is_in_proximity (VRef 1) (VRef 2) σ' = (Return true, σ')
      ∧ is_in_proximity (VRef 2) (VRef 1) σ' = (Return true, σ').
Proof.
  split; [lia|]. apply (establish_proximity_symmetric blank_state 1 2). lia.
Defined.

Lemma break_after_establish_witness :
  1 ≠ 2
  ∧ ∃ σ1 σ2, establish_proximity (VRef 1) (VRef 2) blank_state = (Return tt, σ1)
      ∧ break_proximity (VRef 1) (VRef 2) σ1 = (Return tt, σ2)
      ∧ is_in_proximity (VRef 1) (VRef 2) σ2 = (Return false, σ2)
      ∧ is_in_proximity (VRef 2) (VRef 1) σ2 = (Return false, σ2).
Proof.
  split; [lia|]. apply (break_after_establish blank_state 1 2). lia.
Defined.

Lemma clear_all_proximity_removes_traces_witness :
  ∃ σ', clear_all_proximity (order := elements_order) (VRef 1) trio_state = (Return tt, σ')
    ∧ get_proximity_list (order := elements_order) (VRef 1) σ' = (Return [], σ')
    ∧ is_in_proximity (VRef 2) (VRef 1) σ' = (Return false, σ')
    ∧ is_in_proximity (VRef 3) (VRef 1) σ' = (Return false, σ').
Proof.
  apply (clear_all_proximity_removes_traces (order := elements_order) trio_state 1 2 3).
  reflexivity.
Defined.

Lemma clear_all_proximity_frame_witness :
  let σ' := (clear_all_proximity (order := elements_order) (VRef 1) one_sided_state).2 in
  objs σ' 2 = objs one_sided_state 2
  ∧ neighbors σ' 2 = neighbors one_sided_state 2
  ∧ (VRef 1 ∈ neighbors one_sided_state 2 →
     is_in_proximity (VRef 2) (VRef 1) σ' = (Return true, σ')).
Proof.
  apply (clear_all_proximity_frame (order := elements_order) one_sided_state 1 2).
  - lia.
  - apply (bool_decide_unpack _). vm_compute. exact I.
Defined.

Lemma null_neighbor_raises_witness :
  (clear_all_proximity (order := elements_order) (VRef 1) null_neighbor_state).1
  = Raised AttributeError
  ∧ (sync_proximity_bidirectional (order := elements_order) (VRef 1) null_neighbor_state).1
    = Raised AttributeError.
Proof.
  apply (null_neighbor_raises (order := elements_order) null_neighbor_state 1 {[VNone]}).
  - reflexivity.
  - apply (bool_decide_unpack _). vm_compute. exact I.
Defined.

Lemma sync_proximity_bidirectional_null_first_witness :
  sync_proximity_bidirectional (order := none_first_order) (VRef 1) null_and_drift_state
  = (Raised AttributeError, null_and_drift_state)
  ∧ is_in_proximity (VRef 2) (VRef 1) null_and_drift_state
    = (Return false, null_and_drift_state).
Proof.
  apply (sync_proximity_bidirectional_null_first (order := none_first_order)
           null_and_drift_state 1 {[VNone; VRef 2]} [VRef 2] 2).
  - reflexivity.
  - vm_compute. reflexivity.
  - apply (bool_decide_unpack _). vm_compute. exact I.
  - lia.
  - apply (bool_decide_unpack _). vm_compute. exact I.
Defined.

Lemma cleanup_invalid_proximity_removes_witness :
  ∃ σ' s', cleanup_invalid_proximity (order := elements_order) (VRef 1) nowhere_state
           = (Return tt, σ')
    ∧ ndb_proximity (objs σ' 1) = Some (StoredSet s')
    ∧ s' ⊆ {[VRef 2]}
    ∧ (∀ n, n ∈ ({[VRef 2]} : gset value) → (n ∉ s' ↔ cleanup_removes nowhere_state 1 n))
    ∧ same_identity (objs nowhere_state 1) (objs σ' 1)
    ∧ (∀ b, b ≠ 1 → objs σ' b = objs nowhere_state b).
Proof.
  apply (cleanup_invalid_proximity_removes (order := elements_order) nowhere_state 1 {[VRef 2]}).
  reflexivity.
Defined.

(** C2, as the specification words it, fails on [nowhere_state]: actor 1
    has no resolvable location (the attribute is there, its value is
    [None]) and its neighbour 2 is valid and located, so the worded rule
    keeps 2; the code removes it. *)
Lemma cleanup_spec_rule_counterexample :
  ndb_proximity (objs nowhere_state 1) = Some (StoredSet {[VRef 2]})
  ∧ ¬ (VRef 2 ∉ neighbors (cleanup_invalid_proximity (order := elements_order)
                             (VRef 1) nowhere_state).2 1
       ↔ spec_cleanup_removes nowhere_state 1 (VRef 2)).
Proof.
  split; [reflexivity|]. intros [Hremoved _].
  destruct Hremoved as [Hn|[Hn|(la & Hla & _)]].
  - apply (bool_decide_unpack _). vm_compute. exact I.
  - vm_compute in Hn. discriminate.
  - vm_compute in Hn. discriminate.
  - vm_compute in Hla. discriminate.
Qed.

(** The run of the example of the specification: three neighbours, all
    with a [dex], rolling 5, 9 and 9 in the order of the enumeration. *)
Example proximity_opposed_roll_sample :
  let dex (k : string) := Obj k true {["dex" := VNone]} None in
  let σ := State (<[1 := actor "A" {[VRef 2; VRef 3; VRef 4]}]>
                  (<[2 := dex "X"]> (<[3 := dex "Y"]> (<[4 := dex "Z"]> (λ _, anybody)))))
                 [] 0 in
  let roll_stat (σ : state) (_ : value) (_ : string) : Z :=
    match rolls_made σ with 0 => 5%Z | _ => 9%Z end in
  let X := default VNone (enumerate (SetOrder := elements_order) {[VRef 2; VRef 3; VRef 4]} !! 0) in
  let Y := default VNone (enumerate (SetOrder := elements_order) {[VRef 2; VRef 3; VRef 4]} !! 1) in
  let Z := default VNone (enumerate (SetOrder := elements_order) {[VRef 2; VRef 3; VRef 4]} !! 2) in
  (proximity_opposed_roll (order := elements_order) (attributes := python_attributes)
     roll_stat (VRef 1) "dex" σ).1
  = Return (9%Z, Y, [(X, 5%Z); (Y, 9%Z); (Z, 9%Z)]).
Proof. vm_compute. reflexivity. Qed.

(** ** Further properties of the module *)

(** *** Only the proximity slot is ever written *)

Lemma same_identity_refl ob : same_identity ob ob.
Proof. by repeat split. Qed.

Lemma same_identity_trans ob1 ob2 ob3 :
  same_identity ob1 ob2 → same_identity ob2 ob3 → same_identity ob1 ob3.
Proof. intros (? & ? & ?) (? & ? & ?). repeat split; congruence. Qed.

Lemma obj_eq ob ob' :
  same_identity ob ob' → ndb_proximity ob' = ndb_proximity ob → ob' = ob.
Proof. destruct ob, ob'. intros (? & ? & ?) ?. simpl in *. congruence. Qed.

Lemma only_proximity_refl σ : only_proximity σ σ.
Proof. intros c. apply same_identity_refl. Qed.

Lemma only_proximity_trans σ1 σ2 σ3 :
  only_proximity σ1 σ2 → only_proximity σ2 σ3 → only_proximity σ1 σ3.
Proof. intros H12 H23 c. eapply same_identity_trans; [apply H12 | apply H23]. Qed.

Lemma only_proximity_upd_obj o f σ :
  (∀ ob, same_identity ob (f ob)) → only_proximity σ (upd_obj o f σ).
Proof.
  intros Hf c. rewrite objs_upd_obj. case_decide as Hc; [subst; apply Hf|].
  apply same_identity_refl.
Qed.

Lemma quiet_ret {A} (a : A) : quiet (ret a).
Proof. intros σ. apply only_proximity_refl. Qed.

Lemma quiet_raise {A} e : quiet (raise (A := A) e).
Proof. intros σ. apply only_proximity_refl. Qed.

Lemma quiet_get_state : quiet get_state.
Proof. intros σ. apply only_proximity_refl. Qed.

Lemma quiet_ndb_of v : quiet (ndb_of v).
Proof. intros σ. destruct v; apply only_proximity_refl. Qed.

Lemma quiet_key_of v : quiet (key_of v).
Proof. intros σ. destruct v; apply only_proximity_refl. Qed.

Lemma quiet_log_debug c e m : quiet (log_debug c e m).
Proof. intros σ x. apply same_identity_refl. Qed.

Lemma quiet_set_method o f : quiet (set_method o f).
Proof.
  intros σ. unfold set_method. destruct (is_proximity_set σ o); simpl.
  - apply only_proximity_upd_obj. intros ob. unfold map_set.
    destruct (ndb_proximity ob) as [[s|]|]; by repeat split.
  - apply only_proximity_refl.
Qed.

Lemma quiet_setattr_fresh_set o : quiet (setattr_fresh_set o).
Proof.
  intros σ. unfold setattr_fresh_set, modify. simpl.
  apply only_proximity_upd_obj. intros ob. by repeat split.
Qed.

Lemma quiet_bind {A B} (m : M A) (k : A → M B) :
  quiet m → (∀ x, quiet (k x)) → quiet (bind m k).
Proof.
  intros Hm Hk σ. unfold bind. specialize (Hm σ).
  destruct (m σ) as [[x|e] σ1]; simpl in *; [|done].
  eapply only_proximity_trans; [exact Hm | apply Hk].
Qed.

Lemma quiet_for_each {A} (l : list A) (body : A → M unit) :
  (∀ x, quiet (body x)) → quiet (for_each l body).
Proof.
  intros Hbody. induction l as [|x l IH]; cbn [for_each].
  - apply quiet_ret.
  - apply quiet_bind; [apply Hbody | intros _; apply IH].
Qed.

Ltac quiet_step :=
  first
    [ apply quiet_ret | apply quiet_raise | apply quiet_get_state
    | apply quiet_ndb_of | apply quiet_key_of | apply quiet_log_debug
    | apply quiet_set_method | apply quiet_setattr_fresh_set
    | apply quiet_bind; [|intro]
    | apply quiet_for_each; intro ].

Ltac quiet_branch :=
  match goal with
  | |- quiet (if ?b then _ else _) => destruct b
  | |- quiet (match ?x with _ => _ end) => destruct x
  end.

Ltac quiet_tac := repeat (quiet_step || quiet_branch).

Section further_facts.
Context {order : SetOrder}.

Lemma quiet_initialize_proximity c : quiet (initialize_proximity c).
Proof. unfold initialize_proximity. quiet_tac. Qed.

Lemma quiet_is_in_proximity c1 c2 : quiet (is_in_proximity c1 c2).
Proof. unfold is_in_proximity. quiet_tac. Qed.

Lemma quiet_establish_proximity c1 c2 : quiet (establish_proximity c1 c2).
Proof.
  unfold establish_proximity. case_decide; [apply quiet_ret|].
  repeat (apply quiet_bind; [try apply quiet_initialize_proximity|intro]); quiet_tac.
Qed.

Lemma quiet_break_proximity c1 c2 : quiet (break_proximity c1 c2).
Proof. unfold break_proximity. quiet_tac. Qed.

Lemma quiet_clear_all_proximity c : quiet (clear_all_proximity c).
Proof. unfold clear_all_proximity, forget. quiet_tac. Qed.

Lemma quiet_cleanup_invalid_proximity c : quiet (cleanup_invalid_proximity c).
Proof. unfold cleanup_invalid_proximity, remove_invalid. quiet_tac. Qed.

Lemma quiet_sync_proximity_bidirectional c : quiet (sync_proximity_bidirectional c).
Proof.
  unfold sync_proximity_bidirectional, reciprocate.
  apply quiet_bind; [quiet_tac|intro]. apply quiet_bind; [quiet_tac|intro].
  quiet_branch; [|quiet_tac..]. quiet_branch; [|quiet_tac..].
  apply quiet_for_each. intro. apply quiet_bind; [apply quiet_is_in_proximity|intro].
  quiet_branch; [|quiet_tac].
  apply quiet_bind; [apply quiet_initialize_proximity|intro]. quiet_tac.
Qed.

(** X1. No operation that writes ever changes the key, the truth value or
    an attribute (the location among them) of any object, whatever the
    arguments, the state and the outcome. *)
Theorem operations_touch_only_proximity (c1 c2 : value) :
  quiet (initialize_proximity c1)
  ∧ quiet (establish_proximity c1 c2)
  ∧ quiet (break_proximity c1 c2)
  ∧ quiet (clear_all_proximity c1)
  ∧ quiet (cleanup_invalid_proximity c1)
  ∧ quiet (sync_proximity_bidirectional c1).
Proof.
  split; [apply quiet_initialize_proximity|].
  split; [apply quiet_establish_proximity|].
  split; [apply quiet_break_proximity|].
  split; [apply quiet_clear_all_proximity|].
  split; [apply quiet_cleanup_invalid_proximity|].
  apply quiet_sync_proximity_bidirectional.
Qed.

(** *** Establishing and breaking *)

Lemma obj_eq_via ob ob1 ob2 :
  same_identity ob ob1 → same_identity ob ob2 →
  ndb_proximity ob1 = ndb_proximity ob2 → ob1 = ob2.
Proof.
  destruct ob, ob1, ob2. intros (? & ? & ?) (? & ? & ?) ?. simpl in *. congruence.
Qed.

(** [establish_proximity] on distinct actors, with what it keeps. *)
Lemma establish_proximity_full σ a b :
  a ≠ b →
  ∃ σ', establish_proximity (VRef a) (VRef b) σ = (Return tt, σ')
    ∧ ndb_proximity (objs σ' a) = Some (StoredSet (neighbors σ a ∪ {[VRef b]}))
    ∧ ndb_proximity (objs σ' b) = Some (StoredSet (neighbors σ b ∪ {[VRef a]}))
    ∧ (∀ c, c ≠ a → c ≠ b → objs σ' c = objs σ c)
    ∧ only_proximity σ σ'.
Proof.
  intros Hne. destruct (establish_proximity_run σ a b Hne) as (σ' & E & Ha & Hb & Hfr).
  exists σ'. repeat (split; [done|]).
  pose proof (quiet_establish_proximity (VRef a) (VRef b) σ) as Hq.
  by rewrite E in Hq.
Qed.

(** X2. [establish_proximity] on distinct actors adds each to the set of
    the other, keeps every entry that was there, and leaves the sets of
    all other actors as they were. *)
Theorem establish_proximity_effect σ a b :
  a ≠ b →
  ∃ σ', establish_proximity (VRef a) (VRef b) σ = (Return tt, σ')
    ∧ neighbors σ' a = neighbors σ a ∪ {[VRef b]}
    ∧ neighbors σ' b = neighbors σ b ∪ {[VRef a]}
    ∧ (∀ c, c ≠ a → c ≠ b → objs σ' c = objs σ c).
Proof.
  intros Hne. destruct (establish_proximity_full σ a b Hne) as (σ' & E & Ha & Hb & Hfr & _).
  exists σ'. split; [done|].
  by rewrite (neighbors_stored _ _ _ Ha), (neighbors_stored _ _ _ Hb).
Qed.

(** X3. Establishing twice is establishing once: the second call changes
    no object (it only logs). *)
Theorem establish_proximity_twice σ a b :
  a ≠ b →
  ∃ σ1 σ2, establish_proximity (VRef a) (VRef b) σ = (Return tt, σ1)
    ∧ establish_proximity (VRef a) (VRef b) σ1 = (Return tt, σ2)
    ∧ ∀ c, objs σ2 c = objs σ1 c.
Proof.
  intros Hne.
  destruct (establish_proximity_full σ a b Hne) as (σ1 & E1 & Ha1 & Hb1 & Hfr1 & _).
  destruct (establish_proximity_full σ1 a b Hne) as (σ2 & E2 & Ha2 & Hb2 & Hfr2 & Hid2).
  exists σ1, σ2. split; [done|]. split; [done|]. intros c.
  destruct (decide (c = a)) as [->|Hca]; [|destruct (decide (c = b)) as [->|Hcb]].
  - apply obj_eq; [apply Hid2|]. rewrite Ha2, Ha1, (neighbors_stored _ _ _ Ha1).
    f_equal. f_equal. set_solver.
  - apply obj_eq; [apply Hid2|]. rewrite Hb2, Hb1, (neighbors_stored _ _ _ Hb1).
    f_equal. f_equal. set_solver.
  - by apply Hfr2.
Qed.

(** X4. The order of the two arguments does not matter for the objects:
    [establish_proximity a b] and [establish_proximity b a] lead to the
    same object store. *)
Theorem establish_proximity_commutes σ a b :
  a ≠ b →
  ∃ σ1 σ2, establish_proximity (VRef a) (VRef b) σ = (Return tt, σ1)
    ∧ establish_proximity (VRef b) (VRef a) σ = (Return tt, σ2)
    ∧ ∀ c, objs σ1 c = objs σ2 c.
Proof.
  intros Hne. assert (Hne' : b ≠ a) by congruence.
  destruct (establish_proximity_full σ a b Hne) as (σ1 & E1 & Ha1 & Hb1 & Hfr1 & Hid1).
  destruct (establish_proximity_full σ b a Hne') as (σ2 & E2 & Hb2 & Ha2 & Hfr2 & Hid2).
  exists σ1, σ2. split; [done|]. split; [done|]. intros c.
  destruct (decide (c = a)) as [->|Hca]; [|destruct (decide (c = b)) as [->|Hcb]].
  - apply (obj_eq_via (objs σ a)); [apply Hid1 | apply Hid2 | congruence].
  - apply (obj_eq_via (objs σ b)); [apply Hid1 | apply Hid2 | congruence].
  - rewrite Hfr1, Hfr2 by done. done.
Qed.

(** X5. A null partner: [establish_proximity None b] raises at once, with
    the state untouched; [establish_proximity a None] raises after having
    initialised the storage of [a], and nobody has entered any set. *)
Theorem establish_proximity_null_partner σ a b :
  establish_proximity VNone (VRef b) σ = (Raised AttributeError, σ)
  ∧ ∃ σ1, establish_proximity (VRef a) VNone σ = (Raised AttributeError, σ1)
      ∧ is_proximity_set σ1 a = true
      ∧ (∀ o, neighbors σ1 o = neighbors σ o)
      ∧ (∀ c, c ≠ a → objs σ1 c = objs σ c).
Proof.
  split; [done|].
  unfold establish_proximity. rewrite decide_False by done.
  destruct (initialize_proximity_post σ a) as (σ1 & E1 & Ha1 & _ & Hfr1).
  step E1. exists σ1. split; [done|]. split; [|split; [|done]].
  - apply is_proximity_set_true. eauto.
  - intros o. destruct (decide (o = a)) as [->|Hne].
    + by apply neighbors_stored.
    + apply neighbors_frame. by apply Hfr1.
Qed.

Lemma key_discard_at o o' v σ : key (objs (discard_at o v σ) o') = key (objs σ o').
Proof.
  unfold discard_at. destruct (is_proximity_set σ o); [|done].
  rewrite objs_upd_obj. case_decide; [subst|done].
  unfold map_set. by destruct (ndb_proximity (objs σ o')) as [[s|]|].
Qed.

Lemma break_proximity_eq σ a b :
  a ≠ b →
  break_proximity (VRef a) (VRef b) σ
  = (Return tt,
     push_log (LogEntry "PROXIMITY" "BREAK" (key (objs σ a) ++ " <-> " ++ key (objs σ b)))
       (discard_at b (VRef a) (discard_at a (VRef b) σ))).
Proof.
  intros Hne. unfold break_proximity.
  destruct (decide (VRef a = VRef b)) as [[=]|_]; [done|].
  rewrite bind_ndb_of, bind_get_state.
  step (guarded_discard_run σ a (VRef b)).
  rewrite bind_ndb_of, bind_get_state.
  step (guarded_discard_run (discard_at a (VRef b) σ) b (VRef a)).
  rewrite !bind_key_of. unfold log_debug, modify.
  by rewrite !key_discard_at.
Qed.

(** X6. [break_proximity] on distinct actors returns in every state; it
    takes each out of the set of the other and nothing else, creates no
    storage where there was none, leaves all other actors alone, and
    writes its BREAK entry to the log whether or not anything was
    removed. *)
Theorem break_proximity_effect σ a b :
  a ≠ b →
  ∃ σ', break_proximity (VRef a) (VRef b) σ = (Return tt, σ')
    ∧ neighbors σ' a = neighbors σ a ∖ {[VRef b]}
    ∧ neighbors σ' b = neighbors σ b ∖ {[VRef a]}
    ∧ (∀ o, is_proximity_set σ' o = is_proximity_set σ o)
    ∧ (∀ c, c ≠ a → c ≠ b → objs σ' c = objs σ c)
    ∧ log σ' = (log σ ++ [LogEntry "PROXIMITY" "BREAK"
                            (key (objs σ a) ++ " <-> " ++ key (objs σ b))])%list.
Proof.
  intros Hne. eexists. split; [by apply break_proximity_eq|].
  change (neighbors (push_log ?e ?s) ?o) with (neighbors s o).
  change (objs (push_log ?e ?s)) with (objs s).
  change (is_proximity_set (push_log ?e ?s)) with (is_proximity_set s).
  rewrite !neighbors_discard_at. repeat case_decide; try congruence.
  split; [done|]. split; [done|]. split; [|split].
  - intros o. by rewrite !is_proximity_set_discard_at.
  - intros c Hca Hcb. by rewrite !objs_discard_at_ne.
  - simpl. f_equal. unfold discard_at.
    by destruct (is_proximity_set _ b), (is_proximity_set σ a).
Qed.

(** X7. Breaking undoes establishing: when neither actor held the other,
    [establish_proximity a b] followed by [break_proximity a b] gives
    every actor the neighbours it had. *)
Theorem break_undoes_establish σ a b :
  a ≠ b →
  VRef b ∉ neighbors σ a →
  VRef a ∉ neighbors σ b →
  ∃ σ1 σ2, establish_proximity (VRef a) (VRef b) σ = (Return tt, σ1)
    ∧ break_proximity (VRef a) (VRef b) σ1 = (Return tt, σ2)
    ∧ ∀ o, neighbors σ2 o = neighbors σ o.
Proof.
  intros Hne Hab Hba.
  destruct (establish_proximity_full σ a b Hne) as (σ1 & E1 & Ha1 & Hb1 & Hfr1 & _).
  destruct (break_proximity_run σ1 a b Hne) as (σ2 & E2 & Ha2 & Hb2 & Hfr2).
  exists σ1, σ2. split; [done|]. split; [done|]. intros o.
  destruct (decide (o = a)) as [->|Hoa]; [|destruct (decide (o = b)) as [->|Hob]].
  - rewrite Ha2, (neighbors_stored _ _ _ Ha1). set_solver.
  - rewrite Hb2, (neighbors_stored _ _ _ Hb1). set_solver.
  - apply neighbors_frame. rewrite Hfr2, Hfr1 by done. done.
Qed.


(** *** The two queries *)

(** X8. [get_proximity_list] reads only; its list holds each member of
    the set once and nothing else (the empty list without storage), and
    [is_in_proximity a v] answers whether [v] is in that list, except
    that it denies [a] itself. *)
Theorem get_proximity_list_members σ a :
  ∃ l, get_proximity_list (VRef a) σ = (Return l, σ)
    ∧ NoDup l
    ∧ (∀ v, v ∈ l ↔ v ∈ neighbors σ a)
    ∧ (∀ v, is_in_proximity (VRef a) v σ
            = (Return (bool_decide (v ∈ l ∧ v ≠ VRef a)), σ)).
Proof.
  eexists. split; [apply get_proximity_list_run|].
  assert (Hl : ∀ v, v ∈ match ndb_proximity (objs σ a) with
                        | Some (StoredSet s) => enumerate s
                        | _ => []
                        end ↔ v ∈ neighbors σ a).
  { intros v. unfold neighbors.
    destruct (ndb_proximity (objs σ a)) as [[s|]|]; rewrite ?elem_of_enumerate; try done.
    - split; [by intros ?%elem_of_nil | by intros ?%not_elem_of_empty].
    - split; [by intros ?%elem_of_nil | by intros ?%not_elem_of_empty]. }
  split; [|split; [done|]].
  - destruct (ndb_proximity (objs σ a)) as [[s|]|]; [apply NoDup_enumerate | apply NoDup_nil_2..].
  - intros v. rewrite is_in_proximity_run. f_equal. f_equal.
    apply bool_decide_ext. rewrite Hl. tauto.
Qed.

(** *** Clearing *)

Lemma forget_loop_exact c l σ :
  VNone ∉ l →
  ∃ σ', for_each l (forget c) σ = (Return tt, σ')
    ∧ ∀ o, neighbors σ' o
           = if decide (VRef o ∈ l) then neighbors σ o ∖ {[c]} else neighbors σ o.
Proof.
  revert σ. induction l as [|[|b] l IH]; intros σ Hnone; cbn [for_each].
  - exists σ. split; [done|]. intros o. case_decide as Ho; [|done].
    by apply elem_of_nil in Ho.
  - exfalso. apply Hnone. left.
  - step (forget_ref_run c b σ).
    destruct (IH (discard_at b c σ)) as (σ' & E & Hnb); [set_solver|].
    exists σ'. split; [done|]. intros o. rewrite Hnb, neighbors_discard_at.
    repeat case_decide; set_solver.
Qed.

(** X9. [clear_all_proximity] on a set of actors: the set of [a] ends
    empty; each actor of that set loses [a] and nothing else; every other
    actor keeps its set; and no storage is created for a neighbour that
    had none. *)
Theorem clear_all_proximity_effect σ a s :
  ndb_proximity (objs σ a) = Some (StoredSet s) →
  VNone ∉ s →
  ∃ σ', clear_all_proximity (VRef a) σ = (Return tt, σ')
    ∧ neighbors σ' a = ∅
    ∧ (∀ o, o ≠ a → VRef o ∈ s → neighbors σ' o = neighbors σ o ∖ {[VRef a]})
    ∧ (∀ o, o ≠ a → VRef o ∉ s → neighbors σ' o = neighbors σ o)
    ∧ (∀ o, is_proximity_set σ' o = is_proximity_set σ o).
Proof.
  intros Hs Hnone. unfold clear_all_proximity.
  rewrite bind_ndb_of, bind_get_state, Hs.
  destruct (forget_loop_exact (VRef a) (enumerate s) σ) as (σ1 & E1 & Hnb).
  { by rewrite elem_of_enumerate. }
  step E1.
  pose proof (forget_loop_frame (VRef a) (enumerate s) σ) as (_ & Hset & _).
  rewrite E1 in Hset. simpl in Hset.
  destruct (proj1 (is_proximity_set_true σ1 a)) as [s1 Hs1].
  { rewrite Hset. apply is_proximity_set_true. eauto. }
  step (set_method_run _ _ (λ _, ∅) _ Hs1).
  rewrite bind_key_of. unfold log_debug, modify.
  eexists; split; [done|].
  change (neighbors (push_log ?e ?s) ?o) with (neighbors s o).
  change (is_proximity_set (push_log ?e ?s)) with (is_proximity_set s).
  split; [|split; [|split]].
  - by rewrite neighbors_upd_set, decide_True.
  - intros o Ho Hin. rewrite neighbors_upd_set, decide_False by done.
    rewrite Hnb, decide_True; [done|]. by rewrite elem_of_enumerate.
  - intros o Ho Hin. rewrite neighbors_upd_set, decide_False by done.
    rewrite Hnb, decide_False; [done|]. by rewrite elem_of_enumerate.
  - intros o. rewrite is_proximity_set_upd_set. case_decide; [subst|done].
    rewrite <- Hset. symmetry. apply is_proximity_set_true. eauto.
Qed.


(** *** A graph without drift stays without drift *)

Lemma establish_proximity_neighbors σ a b :
  a ≠ b →
  ∃ σ', establish_proximity (VRef a) (VRef b) σ = (Return tt, σ')
    ∧ ∀ o, neighbors σ' o
           = if decide (o = a) then neighbors σ a ∪ {[VRef b]}
             else if decide (o = b) then neighbors σ b ∪ {[VRef a]}
             else neighbors σ o.
Proof.
  intros Hne. destruct (establish_proximity_run σ a b Hne) as (σ' & E & Ha & Hb & Hfr).
  exists σ'. split; [done|]. intros o. repeat case_decide; subst.
  - by apply neighbors_stored.
  - by apply neighbors_stored.
  - apply neighbors_frame. by apply Hfr.
Qed.

Lemma break_proximity_neighbors σ a b :
  a ≠ b →
  ∃ σ', break_proximity (VRef a) (VRef b) σ = (Return tt, σ')
    ∧ ∀ o, neighbors σ' o
           = if decide (o = a) then neighbors σ a ∖ {[VRef b]}
             else if decide (o = b) then neighbors σ b ∖ {[VRef a]}
             else neighbors σ o.
Proof.
  intros Hne. destruct (break_proximity_run σ a b Hne) as (σ' & E & Ha & Hb & Hfr).
  exists σ'. split; [done|]. intros o. repeat case_decide; subst; try done.
  apply neighbors_frame. by apply Hfr.
Qed.

(** X10. [establish_proximity] keeps a graph without drift: from a state
    whose sets hold actors only, nobody itself, and every entry with its
    reciprocal, it leads to such a state. *)
Theorem establish_proximity_consistent σ a b :
  consistent σ →
  a ≠ b →
  ∃ σ', establish_proximity (VRef a) (VRef b) σ = (Return tt, σ') ∧ consistent σ'.
Proof.
  intros (Hnone & Hself & Hsym) Hne.
  destruct (establish_proximity_neighbors σ a b Hne) as (σ' & E & Hnb).
  exists σ'. split; [done|]. split; [|split].
  - intros o. rewrite Hnb. specialize (Hnone o).
    repeat case_decide; subst; set_solver.
  - intros o. rewrite Hnb. specialize (Hself o).
    repeat case_decide; subst; set_solver.
  - intros x y. rewrite !Hnb. specialize (Hsym x y).
    repeat case_decide; subst; set_solver.
Qed.

(** X11. [break_proximity] keeps a graph without drift. *)
Theorem break_proximity_consistent σ a b :
  consistent σ →
  a ≠ b →
  ∃ σ', break_proximity (VRef a) (VRef b) σ = (Return tt, σ') ∧ consistent σ'.
Proof.
  intros (Hnone & Hself & Hsym) Hne.
  destruct (break_proximity_neighbors σ a b Hne) as (σ' & E & Hnb).
  exists σ'. split; [done|]. split; [|split].
  - intros o. rewrite Hnb. specialize (Hnone o).
    repeat case_decide; subst; set_solver.
  - intros o. rewrite Hnb. specialize (Hself o).
    repeat case_decide; subst; set_solver.
  - intros x y. rewrite !Hnb. specialize (Hsym x y).
    repeat case_decide; subst; set_solver.
Qed.

Lemma clear_all_proximity_neighbors σ a :
  VNone ∉ neighbors σ a →
  ∃ σ', clear_all_proximity (VRef a) σ = (Return tt, σ')
    ∧ ∀ o, neighbors σ' o
           = if decide (o = a) then
               if is_proximity_set σ a then ∅ else neighbors σ a
             else if decide (VRef o ∈ neighbors σ a) then neighbors σ o ∖ {[VRef a]}
             else neighbors σ o.
Proof.
  intros Hnone. unfold clear_all_proximity, is_proximity_set.
  rewrite bind_ndb_of, bind_get_state.
  destruct (ndb_proximity (objs σ a)) as [[s|]|] eqn:Hs.
  - rewrite (neighbors_stored _ _ _ Hs) in Hnone |- *.
    destruct (forget_loop_exact (VRef a) (enumerate s) σ) as (σ1 & E1 & Hnb).
    { by rewrite elem_of_enumerate. }
    step E1.
    pose proof (forget_loop_frame (VRef a) (enumerate s) σ) as (_ & Hset & _).
    rewrite E1 in Hset. simpl in Hset.
    destruct (proj1 (is_proximity_set_true σ1 a)) as [s1 Hs1].
    { rewrite Hset. apply is_proximity_set_true. eauto. }
    step (set_method_run _ _ (λ _, ∅) _ Hs1).
    rewrite bind_key_of. unfold log_debug, modify.
    eexists; split; [done|]. intros o.
    change (neighbors (push_log ?e ?s) ?o) with (neighbors s o).
    rewrite neighbors_upd_set, Hnb.
    repeat case_decide; subst; try done; exfalso; rewrite elem_of_enumerate in *; done.
  - exists σ. split; [done|]. intros o.
    assert (Hn : neighbors σ a = ∅) by (unfold neighbors; by rewrite Hs).
    rewrite Hn. destruct (decide (o = a)) as [->|Hne]; [done|].
    case_decide as Ho; [|done]. by apply not_elem_of_empty in Ho.
  - exists σ. split; [done|]. intros o.
    assert (Hn : neighbors σ a = ∅) by (unfold neighbors; by rewrite Hs).
    rewrite Hn. destruct (decide (o = a)) as [->|Hne]; [done|].
    case_decide as Ho; [|done]. by apply not_elem_of_empty in Ho.
Qed.

(** X12. On a graph without drift [clear_all_proximity] returns, and the
    graph it leaves is again without drift. *)
Theorem clear_all_proximity_consistent σ a :
  consistent σ →
  ∃ σ', clear_all_proximity (VRef a) σ = (Return tt, σ') ∧ consistent σ'.
Proof.
  intros (Hnone & Hself & Hsym).
  destruct (clear_all_proximity_neighbors σ a (Hnone a)) as (σ' & E & Hnb).
  exists σ'. split; [done|]. split; [|split].
  - intros o. rewrite Hnb. specialize (Hnone o).
    destruct (is_proximity_set σ a); repeat case_decide; subst; set_solver.
  - intros o. rewrite Hnb. specialize (Hself o).
    destruct (is_proximity_set σ a); repeat case_decide; subst; set_solver.
  - intros x y. rewrite !Hnb.
    pose proof (Hsym x y). pose proof (Hsym x a). pose proof (Hsym a y).
    pose proof (Hsym y a). pose proof (Hsym a x).
    assert (is_proximity_set σ a = false → neighbors σ a = ∅) as Hempty.
    { unfold is_proximity_set, neighbors.
      by destruct (ndb_proximity (objs σ a)) as [[s|]|]. }
    destruct (is_proximity_set σ a); repeat case_decide; subst; try set_solver.
Qed.

(** The loop of sync on neighbours that all hold [a] already. *)
Lemma reciprocate_loop_noop a l σ :
  (∀ v, v ∈ l → ∃ b, v = VRef b ∧ b ≠ a ∧ VRef a ∈ neighbors σ b) →
  for_each l (reciprocate (VRef a)) σ = (Return tt, σ).
Proof.
  induction l as [|v l IH]; intros Hl; cbn [for_each]; [done|].
  destruct (Hl v) as (b & -> & Hne & Hin); [left|].
  assert (E : reciprocate (VRef a) (VRef b) σ = (Return tt, σ)).
  { unfold reciprocate. step (is_in_proximity_run σ b (VRef a)).
    rewrite bool_decide_eq_true_2; [done|]. split; [congruence | done]. }
  step E. apply IH. intros v' Hv'. apply Hl. by right.
Qed.

(** X13. On a graph without drift [sync_proximity_bidirectional] has
    nothing to repair: it returns and the state is as before, log
    included. *)
Theorem sync_proximity_bidirectional_consistent σ a :
  consistent σ →
  sync_proximity_bidirectional (VRef a) σ = (Return tt, σ).
Proof.
  intros (Hnone & Hself & Hsym). unfold sync_proximity_bidirectional.
  rewrite bind_ndb_of, bind_get_state.
  destruct (ndb_proximity (objs σ a)) as [[s|]|] eqn:Hs; [|done..].
  specialize (Hnone a). specialize (Hself a).
  rewrite (neighbors_stored _ _ _ Hs) in Hnone, Hself.
  apply reciprocate_loop_noop. intros v Hv. rewrite elem_of_enumerate in Hv.
  destruct v as [|b]; [done|]. exists b. split; [done|]. split.
  - intros ->. done.
  - apply Hsym. by rewrite (neighbors_stored _ _ _ Hs).
Qed.


(** *** Cleaning up *)

Lemma filter_none {A} (P : A → Prop) `{∀ x, Decision (P x)} (l : list A) :
  (∀ x, x ∈ l → ¬ P x) → filter P l = [].
Proof.
  intros Hl. destruct (filter P l) as [|x xs] eqn:Hf; [done|]. exfalso.
  assert (Hx : x ∈ filter P l) by (rewrite Hf; left).
  apply list_elem_of_filter in Hx as [HP Hx]. by apply (Hl x).
Qed.

Lemma truth_only_proximity σ σ' v : only_proximity σ σ' → truth σ' v = truth σ v.
Proof. intros Hid. destruct v as [|o]; [done|]. simpl. apply (Hid o). Qed.

(** The test of cleanup reads nothing that the module writes. *)
Lemma is_invalid_only_proximity σ σ' a n :
  only_proximity σ σ' → is_invalid σ' a n = is_invalid σ a n.
Proof.
  intros Hid. unfold is_invalid. destruct n as [|o]; [done|].
  destruct (Hid o) as (_ & -> & ->). destruct (Hid a) as (_ & _ & ->).
  destruct (truthy (objs σ o)); simpl; [|done].
  destruct (attrs (objs σ o) !! "location") as [loc|]; [|done].
  by rewrite (truth_only_proximity σ σ' loc Hid).
Qed.

Lemma is_invalid_false σ a n : is_invalid σ a n = false ↔ valid_neighbor σ a n.
Proof.
  unfold is_invalid, valid_neighbor. split.
  - destruct n as [|o]; [done|].
    destruct (truthy (objs σ o)) eqn:Ht; simpl; [|done].
    destruct (attrs (objs σ o) !! "location") as [loc|] eqn:Hloc; [|done].
    destruct (truth σ loc) eqn:Htl; simpl; [|done].
    intros Hinv. exists o, loc. repeat (split; [done|]).
    intros la Hla. rewrite Hla in Hinv.
    apply bool_decide_eq_false in Hinv. by destruct (decide (la = loc)).
  - intros (o & loc & -> & Ht & Hloc & Htl & Hsame).
    rewrite Ht, Hloc, Htl. simpl.
    destruct (attrs (objs σ a) !! "location") as [la|]; [|done].
    apply bool_decide_eq_false. intros Hne. apply Hne. by apply Hsame.
Qed.

Lemma valid_neighbor_only_proximity σ σ' a n :
  only_proximity σ σ' → valid_neighbor σ a n → valid_neighbor σ' a n.
Proof.
  intros Hid Hv. apply is_invalid_false. rewrite (is_invalid_only_proximity σ σ') by done.
  by apply is_invalid_false.
Qed.

(** [cleanup_invalid_proximity] on an actor with a set. *)
Lemma cleanup_invalid_proximity_run σ a s :
  ndb_proximity (objs σ a) = Some (StoredSet s) →
  ∃ σ' s', cleanup_invalid_proximity (VRef a) σ = (Return tt, σ')
    ∧ ndb_proximity (objs σ' a) = Some (StoredSet s')
    ∧ (∀ n, n ∈ s' ↔ n ∈ s ∧ is_invalid σ a n = false)
    ∧ only_proximity σ σ'.
Proof.
  intros Hs.
  pose proof (quiet_cleanup_invalid_proximity (VRef a) σ) as Hq.
  unfold cleanup_invalid_proximity in *.
  rewrite bind_ndb_of, bind_get_state, Hs in *.
  set (invalid_chars := filter _ _) in *.
  destruct (remove_invalid_loop a invalid_chars σ s Hs) as (σ' & E & Hs' & _).
  rewrite E in Hq. exists σ', (s ∖ list_to_set invalid_chars).
  split; [done|]. split; [done|]. split; [|done].
  intros n. rewrite elem_of_difference, elem_of_list_to_set.
  unfold invalid_chars. rewrite list_elem_of_filter, elem_of_enumerate.
  destruct (is_invalid σ a n); split.
  - intros [Hn Hout]. exfalso. by apply Hout.
  - by intros [_ ?].
  - by intros [Hn _].
  - intros [Hn _]. split; [done|]. by intros [? _].
Qed.

(** X14. What cleanup leaves is valid: after [cleanup_invalid_proximity a]
    every member of the set of [a] is an object that is true, whose
    location is true, and which stands where [a] stands when [a] has a
    [location] attribute. *)
Theorem cleanup_invalid_proximity_leaves_valid σ a s :
  ndb_proximity (objs σ a) = Some (StoredSet s) →
  ∃ σ', cleanup_invalid_proximity (VRef a) σ = (Return tt, σ')
    ∧ ∀ n, n ∈ neighbors σ' a → valid_neighbor σ' a n.
Proof.
  intros Hs.
  destruct (cleanup_invalid_proximity_run σ a s Hs) as (σ' & s' & E & Hs' & Hin & Hid).
  exists σ'. split; [done|]. intros n. rewrite (neighbors_stored _ _ _ Hs').
  intros [_ Hn]%Hin. apply (valid_neighbor_only_proximity σ); [done|].
  by apply is_invalid_false.
Qed.

(** X15. Cleaning up twice is cleaning up once: the second call in a row
    finds nothing to remove and leaves the state as it is. *)
Theorem cleanup_invalid_proximity_twice σ a s :
  ndb_proximity (objs σ a) = Some (StoredSet s) →
  ∃ σ', cleanup_invalid_proximity (VRef a) σ = (Return tt, σ')
    ∧ cleanup_invalid_proximity (VRef a) σ' = (Return tt, σ').
Proof.
  intros Hs.
  destruct (cleanup_invalid_proximity_run σ a s Hs) as (σ' & s' & E & Hs' & Hin & Hid).
  exists σ'. split; [done|].
  unfold cleanup_invalid_proximity. rewrite bind_ndb_of, bind_get_state, Hs'.
  rewrite filter_none; [done|].
  intros n Hn. rewrite elem_of_enumerate in Hn. apply Hin in Hn as [_ Hn].
  rewrite (is_invalid_only_proximity σ σ') by done. by rewrite Hn.
Qed.

(** X16. Cleanup makes the two walks safe: after
    [cleanup_invalid_proximity a] the set of [a] holds no [None], so that
    [clear_all_proximity a] and [sync_proximity_bidirectional a] both
    return. *)
Theorem cleanup_invalid_proximity_makes_safe σ a s :
  ndb_proximity (objs σ a) = Some (StoredSet s) →
  ∃ σ1 σ2 σ3, cleanup_invalid_proximity (VRef a) σ = (Return tt, σ1)
    ∧ (VNone ∉ neighbors σ1 a)
    ∧ clear_all_proximity (VRef a) σ1 = (Return tt, σ2)
    ∧ sync_proximity_bidirectional (VRef a) σ1 = (Return tt, σ3).
Proof.
  intros Hs.
  destruct (cleanup_invalid_proximity_run σ a s Hs) as (σ1 & s1 & E & Hs1 & Hin & _).
  assert (Hnone : VNone ∉ s1).
  { intros Hn. apply Hin in Hn as [_ Hn]. done. }
  destruct (clear_all_proximity_run σ1 a s1 Hs1 Hnone) as (σ2 & E2 & _).
  destruct (reciprocate_loop_ok a (enumerate s1) σ1) as (σ3 & E3 & _).
  { by rewrite elem_of_enumerate. }
  exists σ1, σ2, σ3. split; [done|]. split; [by rewrite (neighbors_stored _ _ _ Hs1)|].
  split; [done|].
  unfold sync_proximity_bidirectional. by rewrite bind_ndb_of, bind_get_state, Hs1.
Qed.

(** *** Syncing *)

Lemma reciprocate_loop_frame a l σ o :
  VRef o ∉ l → objs (for_each l (reciprocate (VRef a)) σ).2 o = objs σ o.
Proof.
  revert σ. induction l as [|[|b] l IH]; intros σ Ho; cbn [for_each]; [done..|].
  destruct (reciprocate_ref_run σ a b) as (σ1 & E1 & _ & Hfr1).
  step E1. rewrite IH by set_solver. apply Hfr1. set_solver.
Qed.

(** X17. Syncing twice is syncing once: when the set of [a] holds actors
    only and not [a] itself, a second [sync_proximity_bidirectional a] in
    a row leaves the state as it is. *)
Theorem sync_proximity_bidirectional_twice σ a :
  VNone ∉ neighbors σ a →
  VRef a ∉ neighbors σ a →
  ∃ σ', sync_proximity_bidirectional (VRef a) σ = (Return tt, σ')
    ∧ sync_proximity_bidirectional (VRef a) σ' = (Return tt, σ').
Proof.
  intros Hnone Hself. unfold sync_proximity_bidirectional.
  rewrite bind_ndb_of, bind_get_state.
  destruct (ndb_proximity (objs σ a)) as [[s|]|] eqn:Hs.
  - rewrite (neighbors_stored _ _ _ Hs) in Hnone, Hself.
    destruct (reciprocate_loop_ok a (enumerate s) σ) as (σ' & E & Hnb).
    { by rewrite elem_of_enumerate. }
    exists σ'. split; [done|].
    assert (Ha : objs σ' a = objs σ a).
    { pose proof (reciprocate_loop_frame a (enumerate s) σ a) as Hfr.
      rewrite E in Hfr. apply Hfr. by rewrite elem_of_enumerate. }
    rewrite bind_ndb_of, bind_get_state, Ha, Hs.
    apply reciprocate_loop_noop. intros v Hv.
    destruct v as [|b]; [by rewrite elem_of_enumerate in Hv|].
    exists b. split; [done|]. split.
    + intros ->. by rewrite elem_of_enumerate in Hv.
    + rewrite Hnb, decide_True by done. set_solver.
  - exists σ. split; [done|]. by rewrite bind_ndb_of, bind_get_state, Hs.
  - exists σ. split; [done|]. by rewrite bind_ndb_of, bind_get_state, Hs.
Qed.


(** X19. Sync repairs one-sided edges and does nothing else: when the
    set of [a] holds actors only, [sync_proximity_bidirectional a]
    returns; the set of each neighbour [b] of [a] is then its former set
    with [a] added, so that [is_in_proximity b a] answers [True]; and the
    set of every other actor is as before. *)
Theorem sync_proximity_bidirectional_effect σ a :
  VNone ∉ neighbors σ a →
  ∃ σ', sync_proximity_bidirectional (VRef a) σ = (Return tt, σ')
    ∧ (∀ b, VRef b ∈ neighbors σ a → neighbors σ' b = neighbors σ b ∪ {[VRef a]})
    ∧ (∀ b, b ≠ a → VRef b ∈ neighbors σ a →
         is_in_proximity (VRef b) (VRef a) σ' = (Return true, σ'))
    ∧ (∀ o, VRef o ∉ neighbors σ a → neighbors σ' o = neighbors σ o).
Proof.
  intros Hnone.
  assert (∃ σ', sync_proximity_bidirectional (VRef a) σ = (Return tt, σ')
    ∧ ∀ o, neighbors σ' o
           = if decide (VRef o ∈ neighbors σ a)
             then neighbors σ o ∪ {[VRef a]} else neighbors σ o)
    as (σ' & E & Hnb).
  { unfold sync_proximity_bidirectional. rewrite bind_ndb_of, bind_get_state.
    destruct (ndb_proximity (objs σ a)) as [[s|]|] eqn:Hs.
    - assert (Hn : neighbors σ a = s) by by apply neighbors_stored.
      rewrite Hn in Hnone |- *.
      destruct (reciprocate_loop_ok a (enumerate s) σ) as (σ' & E & Hnb).
      { by rewrite elem_of_enumerate. }
      exists σ'. split; [done|]. intros o. rewrite Hnb.
      repeat case_decide; try done; exfalso; rewrite elem_of_enumerate in *; done.
    - assert (Hn : neighbors σ a = ∅) by (unfold neighbors; by rewrite Hs).
      rewrite Hn. exists σ. split; [done|]. intros o. case_decide as Ho; [|done].
      by apply not_elem_of_empty in Ho.
    - assert (Hn : neighbors σ a = ∅) by (unfold neighbors; by rewrite Hs).
      rewrite Hn. exists σ. split; [done|]. intros o. case_decide as Ho; [|done].
      by apply not_elem_of_empty in Ho. }
  exists σ'. split; [done|]. split; [|split].
  - intros b Hb. by rewrite Hnb, decide_True.
  - intros b Hne Hb. rewrite is_in_proximity_run. f_equal. f_equal.
    apply bool_decide_eq_true. split; [congruence|].
    rewrite Hnb, decide_True by done. set_solver.
  - intros o Ho. by rewrite Hnb, decide_False.
Qed.

(** X18. A failed clearing clears nothing of [a]: when the set of [a]
    holds [None] (and not [a] itself), [clear_all_proximity a] leaves the
    record of [a], its set included, and the log as they were, while
    the neighbours walked through before the failure may have lost
    entries. *)
Theorem clear_all_proximity_failed σ a s :
  ndb_proximity (objs σ a) = Some (StoredSet s) →
  VNone ∈ s →
  VRef a ∉ s →
  let σ' := (clear_all_proximity (VRef a) σ).2 in
  objs σ' a = objs σ a
  ∧ log σ' = log σ
  ∧ ∀ o, neighbors σ' o ⊆ neighbors σ o.
Proof.
  intros Hs Hnone Hself σ'.
  assert (Hraise : (for_each (enumerate s) (forget (VRef a)) σ).1 = Raised AttributeError).
  { apply forget_loop_raises. by rewrite elem_of_enumerate. }
  assert (Hσ : σ' = (for_each (enumerate s) (forget (VRef a)) σ).2).
  { unfold σ', clear_all_proximity. rewrite bind_ndb_of, bind_get_state, Hs.
    unfold bind at 1.
    by destruct (for_each (enumerate s) (forget (VRef a)) σ) as [[[]|e] σ1]. }
  rewrite Hσ.
  pose proof (forget_loop_frame (VRef a) (enumerate s) σ) as (Hfr & _ & Hsub & Hlog).
  split; [|by split]. apply Hfr. by rewrite elem_of_enumerate.
Qed.


End further_facts.

(** ** The further properties on sample states *)

Lemma consistent_trio_state : consistent trio_state.
Proof.
  assert (Hnb : ∀ a, neighbors trio_state a
                     = match a with
                       | 1 => {[VRef 2; VRef 3]}
                       | 2 => {[VRef 1]}
                       | 3 => {[VRef 1]}
                       | _ => ∅
                       end).
  { intros [|[|[|[|a]]]]; reflexivity. }
  split; [|split].
  - intros a. rewrite Hnb. destruct a as [|[|[|[|a]]]]; set_solver.
  - intros a. rewrite Hnb. destruct a as [|[|[|[|a]]]]; set_solver.
  - intros a b. rewrite !Hnb.
    destruct a as [|[|[|[|a]]]]; destruct b as [|[|[|[|b]]]]; set_solver.
Defined.

Lemma establish_proximity_effect_witness :
  ∃ σ', establish_proximity (VRef 1) (VRef 4) trio_state = (Return tt, σ')
    ∧ neighbors σ' 1 = neighbors trio_state 1 ∪ {[VRef 4]}
    ∧ neighbors σ' 4 = neighbors trio_state 4 ∪ {[VRef 1]}
    ∧ (∀ c, c ≠ 1 → c ≠ 4 → objs σ' c = objs trio_state c).
Proof. apply (establish_proximity_effect trio_state 1 4). lia. Defined.

Lemma establish_proximity_twice_witness :
  ∃ σ1 σ2, establish_proximity (VRef 1) (VRef 2) blank_state = (Return tt, σ1)
    ∧ establish_proximity (VRef 1) (VRef 2) σ1 = (Return tt, σ2)
    ∧ ∀ c, objs σ2 c = objs σ1 c.
Proof. apply (establish_proximity_twice blank_state 1 2). lia. Defined.

Lemma establish_proximity_commutes_witness :
  ∃ σ1 σ2, establish_proximity (VRef 1) (VRef 2) drift_state = (Return tt, σ1)
    ∧ establish_proximity (VRef 2) (VRef 1) drift_state = (Return tt, σ2)
    ∧ ∀ c, objs σ1 c = objs σ2 c.
Proof. apply (establish_proximity_commutes drift_state 1 2). lia. Defined.

Lemma break_proximity_effect_witness :
  ∃ σ', break_proximity (VRef 1) (VRef 2) drift_state = (Return tt, σ')
    ∧ neighbors σ' 1 = neighbors drift_state 1 ∖ {[VRef 2]}
    ∧ neighbors σ' 2 = neighbors drift_state 2 ∖ {[VRef 1]}
    ∧ (∀ o, is_proximity_set σ' o = is_proximity_set drift_state o)
    ∧ (∀ c, c ≠ 1 → c ≠ 2 → objs σ' c = objs drift_state c)
    ∧ log σ' = (log drift_state
                ++ [LogEntry "PROXIMITY" "BREAK"
                      (key (objs drift_state 1) ++ " <-> " ++ key (objs drift_state 2))])%list.
Proof. apply (break_proximity_effect drift_state 1 2). lia. Defined.

Lemma break_undoes_establish_witness :
  ∃ σ1 σ2, establish_proximity (VRef 2) (VRef 3) trio_state = (Return tt, σ1)
    ∧ break_proximity (VRef 2) (VRef 3) σ1 = (Return tt, σ2)
    ∧ ∀ o, neighbors σ2 o = neighbors trio_state o.
Proof.
  apply (break_undoes_establish trio_state 2 3).
  - lia.
  - apply (bool_decide_unpack _). vm_compute. exact I.
  - apply (bool_decide_unpack _). vm_compute. exact I.
Defined.

Lemma clear_all_proximity_effect_witness :
  ∃ σ', clear_all_proximity (order := elements_order) (VRef 1) trio_state = (Return tt, σ')
    ∧ neighbors σ' 1 = ∅
    ∧ (∀ o, o ≠ 1 → VRef o ∈ ({[VRef 2; VRef 3]} : gset value) →
         neighbors σ' o = neighbors trio_state o ∖ {[VRef 1]})
    ∧ (∀ o, o ≠ 1 → VRef o ∉ ({[VRef 2; VRef 3]} : gset value) →
         neighbors σ' o = neighbors trio_state o)
    ∧ (∀ o, is_proximity_set σ' o = is_proximity_set trio_state o).
Proof.
  apply (clear_all_proximity_effect (order := elements_order) trio_state 1).
  - reflexivity.
  - apply (bool_decide_unpack _). vm_compute. exact I.
Defined.

Lemma establish_proximity_consistent_witness :
  ∃ σ', establish_proximity (VRef 2) (VRef 3) trio_state = (Return tt, σ') ∧ consistent σ'.
Proof.
  apply (establish_proximity_consistent trio_state 2 3).
  - exact consistent_trio_state.
  - lia.
Defined.

Lemma break_proximity_consistent_witness :
  ∃ σ', break_proximity (VRef 1) (VRef 2) trio_state = (Return tt, σ') ∧ consistent σ'.
Proof.
  apply (break_proximity_consistent trio_state 1 2).
  - exact consistent_trio_state.
  - lia.
Defined.

Lemma clear_all_proximity_consistent_witness :
  ∃ σ', clear_all_proximity (order := elements_order) (VRef 1) trio_state = (Return tt, σ')
    ∧ consistent σ'.
Proof.
  apply (clear_all_proximity_consistent (order := elements_order) trio_state 1).
  exact consistent_trio_state.
Defined.

Lemma sync_proximity_bidirectional_consistent_witness :
  sync_proximity_bidirectional (order := elements_order) (VRef 1) trio_state
  = (Return tt, trio_state).
Proof.
  apply (sync_proximity_bidirectional_consistent (order := elements_order) trio_state 1).
  exact consistent_trio_state.
Defined.

Lemma cleanup_invalid_proximity_leaves_valid_witness :
  VRef 2 ∈ neighbors (cleanup_invalid_proximity (order := elements_order)
                        (VRef 1) rooms_state).2 1
  ∧ ∃ σ', cleanup_invalid_proximity (order := elements_order) (VRef 1) rooms_state
          = (Return tt, σ')
      ∧ ∀ n, n ∈ neighbors σ' 1 → valid_neighbor σ' 1 n.
Proof.
  split.
  - apply (bool_decide_unpack _). vm_compute. exact I.
  - apply (cleanup_invalid_proximity_leaves_valid (order := elements_order)
             rooms_state 1 {[VNone; VRef 2; VRef 3]}).
    reflexivity.
Defined.

Lemma cleanup_invalid_proximity_twice_witness :
  ∃ σ', cleanup_invalid_proximity (order := elements_order) (VRef 1) nowhere_state
        = (Return tt, σ')
    ∧ cleanup_invalid_proximity (order := elements_order) (VRef 1) σ' = (Return tt, σ').
Proof.
  apply (cleanup_invalid_proximity_twice (order := elements_order)
           nowhere_state 1 {[VRef 2]}).
  reflexivity.
Defined.

Lemma cleanup_invalid_proximity_makes_safe_witness :
  ∃ σ1 σ2 σ3,
    cleanup_invalid_proximity (order := elements_order) (VRef 1) null_neighbor_state
    = (Return tt, σ1)
    ∧ (VNone ∉ neighbors σ1 1)
    ∧ clear_all_proximity (order := elements_order) (VRef 1) σ1 = (Return tt, σ2)
    ∧ sync_proximity_bidirectional (order := elements_order) (VRef 1) σ1 = (Return tt, σ3).
Proof.
  apply (cleanup_invalid_proximity_makes_safe (order := elements_order)
           null_neighbor_state 1 {[VNone]}).
  reflexivity.
Defined.

Lemma sync_proximity_bidirectional_twice_witness :
  ∃ σ', sync_proximity_bidirectional (order := elements_order) (VRef 1) drift_state
        = (Return tt, σ')
    ∧ sync_proximity_bidirectional (order := elements_order) (VRef 1) σ' = (Return tt, σ').
Proof.
  apply (sync_proximity_bidirectional_twice (order := elements_order) drift_state 1).
  - apply (bool_decide_unpack _). vm_compute. exact I.
  - apply (bool_decide_unpack _). vm_compute. exact I.
Defined.

Lemma clear_all_proximity_failed_witness :
  let σ' := (clear_all_proximity (order := elements_order) (VRef 1) null_neighbor_state).2 in
  objs σ' 1 = objs null_neighbor_state 1
  ∧ log σ' = log null_neighbor_state
  ∧ ∀ o, neighbors σ' o ⊆ neighbors null_neighbor_state o.
Proof.
  apply (clear_all_proximity_failed (order := elements_order) null_neighbor_state 1 {[VNone]}).
  - reflexivity.
  - apply (bool_decide_unpack _). vm_compute. exact I.
  - apply (bool_decide_unpack _). vm_compute. exact I.
Defined.

Lemma sync_proximity_bidirectional_effect_witness :
  ∃ σ', sync_proximity_bidirectional (order := elements_order) (VRef 1) drift_state
        = (Return tt, σ')
    ∧ (∀ b, VRef b ∈ neighbors drift_state 1 →
         neighbors σ' b = neighbors drift_state b ∪ {[VRef 1]})
    ∧ (∀ b, b ≠ 1 → VRef b ∈ neighbors drift_state 1 →
         is_in_proximity (VRef b) (VRef 1) σ' = (Return true, σ'))
    ∧ (∀ o, VRef o ∉ neighbors drift_state 1 → neighbors σ' o = neighbors drift_state o).
Proof.
  apply (sync_proximity_bidirectional_effect (order := elements_order) drift_state 1).
  apply (bool_decide_unpack _). vm_compute. exact I.
Defined.
